(** * The nested tracking-scope runtime of [packages/react/runtime]

    A shallow embedding of [packages/react/runtime/src/index.ts]: the effect
    stores created by [createEffectStore], the process-wide [currentStore]
    register with the start/finish state machine of [_start] and [f], the
    microtask armed by [ensureFinalCleanup], and the host adapter
    [subscribe]/[getSnapshot].

    JavaScript objects are identified by the order of their allocation: an
    effect store is a natural number, the key of its closure variables in the
    map [stores].  A store owns exactly one effect of the reactive core, so the
    same number also names that effect. *)

From Stdlib Require Import ZArith Lia.
From stdpp Require Import gmap list.

Local Open Scope Z_scope.

(** ** Data model *)

(** [EffectStoreUsage]: the constants [UNMANAGED = 0], [MANAGED_COMPONENT = 1]
    and [MANAGED_HOOK = 2]. *)
Inductive EffectStoreUsage : Set :=
| UNMANAGED
| MANAGED_COMPONENT
| MANAGED_HOOK.

#[global] Instance EffectStoreUsage_eq_dec : EqDecision EffectStoreUsage.
Proof. solve_decision. Defined.

(** Identity of an effect store (and of the effect it owns). *)
Abbreviation StoreId := nat.

(** Identity of a host callback handed to [subscribe]. *)
Abbreviation Callback := nat.

(** The function returned by [effectInstance._start()]: it remembers the
    effect it closes and the evaluation context to put back. *)
Record EndEffect : Set := mkEndEffect {
  ee_effect : StoreId;
  ee_prevContext : option StoreId
}.

#[global] Instance EndEffect_eq_dec : EqDecision EndEffect.
Proof. solve_decision. Defined.

(** Calls that leave the runtime, in the order they are made: to the reactive
    core ([effect(...)], [effectInstance._start()], the closer it returned,
    the disposer returned by [effect(...)]) and to the host
    ([onChangeNotifyReact()]). *)
Inductive Event : Set :=
| EffectCreate (e : StoreId)
| EffectStart (e : StoreId)
| EffectEnd (e : StoreId)
| EffectDispose (e : StoreId)
| NotifyReact (cb : Callback).

#[global] Instance Event_eq_dec : EqDecision Event.
Proof. solve_decision. Defined.

(** The closure variables of one [createEffectStore] call, with [_usage]. *)
Record EffectStore : Set := mkEffectStore {
  _usage : EffectStoreUsage;
  version : Z;
  onChangeNotifyReact : option Callback;
  doRestore : bool;
  prevStore : option StoreId;
  endEffect : option EndEffect
}.

#[global] Instance EffectStore_eq_dec : EqDecision EffectStore.
Proof. solve_decision. Defined.

(** The only callback this module ever queues: the one of
    [ensureFinalCleanup]. *)
Inductive Microtask : Set :=
| FinalCleanupTask.

(** The module-level state: [currentStore], [finalCleanup] (is the promise
    set?), every store allocated so far, the microtask queue, and the part of
    the reactive core the stores talk to. *)
Record Runtime : Type := mkRuntime {
  currentStore : option StoreId;
  stores : gmap nat EffectStore;
  nextStore : StoreId;
  finalCleanup : bool;
  microtasks : list Microtask;
  evalContext : option StoreId;
  trace : list Event
}.

Definition initial : Runtime :=
  {| currentStore := None; stores := ∅; nextStore := 0%nat;
     finalCleanup := false; microtasks := []; evalContext := None;
     trace := [] |}.

(** ** Field updates *)

Definition set_currentStore (c : option StoreId) (s : Runtime) : Runtime :=
  {| currentStore := c; stores := stores s; nextStore := nextStore s;
     finalCleanup := finalCleanup s; microtasks := microtasks s;
     evalContext := evalContext s; trace := trace s |}.

Definition set_stores (m : gmap nat EffectStore) (s : Runtime) : Runtime :=
  {| currentStore := currentStore s; stores := m; nextStore := nextStore s;
     finalCleanup := finalCleanup s; microtasks := microtasks s;
     evalContext := evalContext s; trace := trace s |}.

Definition set_nextStore (n : StoreId) (s : Runtime) : Runtime :=
  {| currentStore := currentStore s; stores := stores s; nextStore := n;
     finalCleanup := finalCleanup s; microtasks := microtasks s;
     evalContext := evalContext s; trace := trace s |}.

Definition set_finalCleanup (b : bool) (s : Runtime) : Runtime :=
  {| currentStore := currentStore s; stores := stores s;
     nextStore := nextStore s; finalCleanup := b; microtasks := microtasks s;
     evalContext := evalContext s; trace := trace s |}.

Definition set_microtasks (q : list Microtask) (s : Runtime) : Runtime :=
  {| currentStore := currentStore s; stores := stores s;
     nextStore := nextStore s; finalCleanup := finalCleanup s;
     microtasks := q; evalContext := evalContext s; trace := trace s |}.

Definition set_evalContext (c : option StoreId) (s : Runtime) : Runtime :=
  {| currentStore := currentStore s; stores := stores s;
     nextStore := nextStore s; finalCleanup := finalCleanup s;
     microtasks := microtasks s; evalContext := c; trace := trace s |}.

Definition emit (e : Event) (s : Runtime) : Runtime :=
  {| currentStore := currentStore s; stores := stores s;
     nextStore := nextStore s; finalCleanup := finalCleanup s;
     microtasks := microtasks s; evalContext := evalContext s;
     trace := trace s ++ [e] |}.

(** Assignment to the closure variables of store [n]. *)
Definition upd (n : StoreId) (g : EffectStore -> EffectStore) (s : Runtime)
  : Runtime :=
  set_stores (alter g n (stores s)) s.

Definition with_version (v : Z) (st : EffectStore) : EffectStore :=
  {| _usage := _usage st; version := v;
     onChangeNotifyReact := onChangeNotifyReact st; doRestore := doRestore st;
     prevStore := prevStore st; endEffect := endEffect st |}.

Definition with_onChange (cb : option Callback) (st : EffectStore)
  : EffectStore :=
  {| _usage := _usage st; version := version st; onChangeNotifyReact := cb;
     doRestore := doRestore st; prevStore := prevStore st;
     endEffect := endEffect st |}.

Definition with_tracking (r : bool) (p : option StoreId)
    (e : option EndEffect) (st : EffectStore) : EffectStore :=
  {| _usage := _usage st; version := version st;
     onChangeNotifyReact := onChangeNotifyReact st; doRestore := r;
     prevStore := p; endEffect := e |}.

(** ** The reactive core, as far as the stores use it *)

(** Modelled from the spec: the Tracking Effect of [@preact/signals-core],
    whose code is not part of the runtime package.  Section 6 gives it a
    start-recording operation that returns a stop-recording closer, and a
    value read that records "the current scope" as a dependent; section 5
    says the nesting is last-in-first-out by save and restore.  So the core
    keeps one slot, [evalContext], naming the effect that records reads;
    starting an effect saves the slot in the closer and puts the effect in it;
    the closer puts the saved value back.  The specification describes no
    failure of either operation. *)
Definition effect_start (e : StoreId) (s : Runtime) : EndEffect * Runtime :=
  (mkEndEffect e (evalContext s),
   emit (EffectStart e) (set_evalContext (Some e) s)).

(** Modelled from the spec: the stop-recording closer of the Tracking Effect
    (see [effect_start]). *)
Definition run_endEffect (c : EndEffect) (s : Runtime) : Runtime :=
  emit (EffectEnd (ee_effect c)) (set_evalContext (ee_prevContext c) s).

(** Modelled from the spec: [effect(fn)] of the reactive core allocates the
    Tracking Effect of a store; the specification gives it no effect on the
    recording context. *)
Definition effect_create (e : StoreId) (s : Runtime) : Runtime :=
  emit (EffectCreate e) s.

(** Modelled from the spec: the disposer returned by [effect(fn)]; the
    specification gives it no effect on the recording context. *)
Definition effect_dispose (e : StoreId) (s : Runtime) : Runtime :=
  emit (EffectDispose e) s.

(** Modelled from the spec: a read of a Reactive Source "records current
    scope as a dependent" (section 6), that is, it is recorded by the effect
    in [evalContext], if there is one. *)
Definition attributed_to (s : Runtime) : option StoreId := evalContext s.

(** ** [createEffectStore] and the methods of a store *)

(** [x | 0]: ToInt32 of ECMAScript on an integer, the value modulo 2^32
    read as a signed 32-bit integer. *)
Definition to_int32 (x : Z) : Z :=
  let int32bit := x mod 2 ^ 32 in
  if 2 ^ 31 <=? int32bit then int32bit - 2 ^ 32 else int32bit.

Definition createEffectStore (usage : EffectStoreUsage) (s : Runtime)
  : StoreId * Runtime :=
  let n := nextStore s in
  let st := {| _usage := usage; version := 0; onChangeNotifyReact := None;
               doRestore := false; prevStore := None; endEffect := None |} in
  (n, effect_create n
        (set_nextStore (S n) (set_stores (<[n := st]> (stores s)) s))).

(** [effectInstance._callback]. *)
Definition _callback (n : StoreId) (s : Runtime) : Runtime :=
  match stores s !! n with
  | None => s
  | Some st =>
      let s1 := upd n (with_version (to_int32 (version st + 1))) s in
      match onChangeNotifyReact st with
      | Some cb => emit (NotifyReact cb) s1
      | None => s1
      end
  end.

(** [subscribe(onStoreChange)]; the function it returns is [unsubscribe]. *)
Definition subscribe (n : StoreId) (onStoreChange : Callback) (s : Runtime)
  : Runtime :=
  upd n (with_onChange (Some onStoreChange)) s.

(** The function returned by [subscribe]. *)
Definition unsubscribe (n : StoreId) (s : Runtime) : Runtime :=
  match stores s !! n with
  | None => s
  | Some st =>
      let s1 := upd n (with_version (to_int32 (version st + 1))) s in
      let s2 := upd n (with_onChange None) s1 in
      effect_dispose n s2
  end.

Definition getSnapshot (n : StoreId) (s : Runtime) : option Z :=
  version <$> stores s !! n.

(** [f()]: finishEffect. *)
Definition f (n : StoreId) (s : Runtime) : Runtime :=
  match stores s !! n with
  | None => s
  | Some st =>
      let s1 := match endEffect st with
                | Some c => run_endEffect c s
                | None => s
                end in
      let s2 := if doRestore st then set_currentStore (prevStore st) s1
                else s1 in
      upd n (with_tracking false None None) s2
  end.

(** The three assignments and the register write shared by the branches of
    [_start] that begin tracking. *)
Definition begin_tracking (n : StoreId) (prev : option StoreId) (s : Runtime)
  : Runtime :=
  let '(closer, s1) := effect_start n s in
  set_currentStore (Some n) (upd n (with_tracking true prev (Some closer)) s1).

(** [_start()]: startEffect. *)
Definition _start (n : StoreId) (s : Runtime) : Runtime :=
  match stores s !! n with
  | None => s
  | Some this =>
      match currentStore s with
      | None => begin_tracking n None s
      | Some c =>
          match stores s !! c with
          | None => s
          | Some cur =>
              match _usage cur, _usage this with
              | UNMANAGED, UNMANAGED
              | UNMANAGED, MANAGED_COMPONENT =>
                  begin_tracking n None (f c s)
              | MANAGED_COMPONENT, UNMANAGED
              | MANAGED_HOOK, UNMANAGED => s
              | _, _ => begin_tracking n (Some c) s
              end
          end
      end
  end.

(** [[symDispose]()]. *)
Definition symDispose (n : StoreId) (s : Runtime) : Runtime := f n s.

(** ** The deferred cleanup and [useSignals] *)

Definition ensureFinalCleanup (s : Runtime) : Runtime :=
  if finalCleanup s then s
  else set_microtasks (microtasks s ++ [FinalCleanupTask])
         (set_finalCleanup true s).

(** The body of the queued callback. *)
Definition run_microtask (t : Microtask) (s : Runtime) : Runtime :=
  match t with
  | FinalCleanupTask =>
      let s1 := set_finalCleanup false s in
      match currentStore s1 with
      | Some c => f c s1
      | None => s1
      end
  end.

(** The host takes the oldest queued callback and runs it. *)
Definition step_microtask (s : Runtime) : Runtime :=
  match microtasks s with
  | [] => s
  | t :: q => run_microtask t (set_microtasks q s)
  end.

Fixpoint drain_fuel (fuel : nat) (s : Runtime) : Runtime :=
  match fuel with
  | O => s
  | S k => drain_fuel k (step_microtask s)
  end.

(** The end of the synchronous turn: the microtask queue drains. *)
Definition drainMicrotasks (s : Runtime) : Runtime :=
  drain_fuel (length (microtasks s)) s.

(** [useSignals(_usage)].  [storeRef] is [storeRef.current] of the calling
    component instance.  [useSyncExternalStore] belongs to the host: during
    the render it only reads the snapshot, and it calls [subscribe] later, at
    commit. *)
Definition useSignals (storeRef : option StoreId) (usage : EffectStoreUsage)
    (s : Runtime) : StoreId * Runtime :=
  let s1 := ensureFinalCleanup s in
  let '(n, s2) := match storeRef with
                  | Some n => (n, s1)
                  | None => createEffectStore usage s1
                  end in
  (n, _start n s2).

(** ** Sequences of calls *)

(** What the host and the instrumented code can do to the runtime. *)
Inductive Op : Set :=
| OpCreate (usage : EffectStoreUsage)
| OpStart (n : StoreId)
| OpFinish (n : StoreId)
| OpDispose (n : StoreId)
| OpUseSignals (storeRef : option StoreId) (usage : EffectStoreUsage)
| OpSubscribe (n : StoreId) (cb : Callback)
| OpUnsubscribe (n : StoreId)
| OpCallback (n : StoreId)
| OpGetSnapshot (n : StoreId)
| OpDrain.

Definition step (o : Op) (s : Runtime) : Runtime :=
  match o with
  | OpCreate u => snd (createEffectStore u s)
  | OpStart n => _start n s
  | OpFinish n => f n s
  | OpDispose n => symDispose n s
  | OpUseSignals r u => snd (useSignals r u s)
  | OpSubscribe n cb => subscribe n cb s
  | OpUnsubscribe n => unsubscribe n s
  | OpCallback n => _callback n s
  | OpGetSnapshot n => s
  | OpDrain => drainMicrotasks s
  end.

Fixpoint run (ops : list Op) (s : Runtime) : Runtime :=
  match ops with
  | [] => s
  | o :: ops' => run ops' (step o s)
  end.

(** ** Observations on a state *)

(** The transient bookkeeping of a store is as [createEffectStore] and [f]
    leave it: the store is not between a tracking [_start()] and its [f()]. *)
Definition idle (st : EffectStore) : Prop :=
  doRestore st = false ∧ prevStore st = None ∧ endEffect st = None.

(** [idle], as a test. *)
Definition idleb (st : EffectStore) : bool :=
  negb (doRestore st) && bool_decide (prevStore st = None)
  && bool_decide (endEffect st = None).

(** Store [n] is not tracking in state [s]. *)
Definition is_idle (n : StoreId) (s : Runtime) : bool :=
  match stores s !! n with
  | Some st => idleb st
  | None => true
  end.

(** [store._usage]. *)
Definition usage_of (n : StoreId) (s : Runtime) : option EffectStoreUsage :=
  _usage <$> stores s !! n.

(** The usage of the store in the register. *)
Definition current_usage (s : Runtime) : option EffectStoreUsage :=
  match currentStore s with
  | Some c => usage_of c s
  | None => None
  end.

(** The [prevStore] variable of store [n]. *)
Definition saved_previous (n : StoreId) (s : Runtime)
  : option (option StoreId) :=
  prevStore <$> stores s !! n.

(** The [onChangeNotifyReact] variable of store [n]. *)
Definition registered (n : StoreId) (s : Runtime) : option (option Callback) :=
  onChangeNotifyReact <$> stores s !! n.

(** The scopes reached from the register through the saved previous stores,
    innermost first. *)
Fixpoint follow (fuel : nat) (m : gmap nat EffectStore) (c : option StoreId)
  : list StoreId :=
  match fuel, c with
  | S k, Some n =>
      n :: follow k m (match m !! n with
                       | Some st => prevStore st
                       | None => None
                       end)
  | _, _ => []
  end.

(** The stack of scopes of a state.  Store identities are below [nextStore],
    which is therefore enough fuel whenever the saved previous stores do not
    form a cycle ([consistent_scopeStack] below). *)
Definition scopeStack (s : Runtime) : list StoreId :=
  follow (nextStore s) (stores s) (currentStore s).

(** The part of a store that only the host adapter writes. *)
Definition host_part (st : EffectStore)
  : EffectStoreUsage * Z * option Callback :=
  (_usage st, version st, onChangeNotifyReact st).

(** The part of a store that [_start] and [f] read and write. *)
Definition shape (st : EffectStore)
  : EffectStoreUsage * bool * option StoreId * option EndEffect :=
  (_usage st, doRestore st, prevStore st, endEffect st).

(** The state of the deferred cleanup. *)
Definition reaper_part (s : Runtime) : bool * list Microtask :=
  (finalCleanup s, microtasks s).

(** ** Call sequences that respect the pairing of [_start()] and [f()] *)

(** [_start()] is called on a store that is not already tracking (or on the
    unmanaged store in the register, which the call finishes first); [f()] is
    called on the store in the register, or on a store that is not tracking. *)
Definition startable (n : StoreId) (s : Runtime) : bool :=
  is_idle n s
  || (bool_decide (currentStore s = Some n)
      && bool_decide (usage_of n s = Some UNMANAGED)).

(** [f()] may be called on store [n]. *)
Definition finishable (n : StoreId) (s : Runtime) : bool :=
  is_idle n s || bool_decide (currentStore s = Some n).

(** The pairing discipline, call by call; the host adapter, the effect
    callback and the draining of the microtask queue are never restricted. *)
Definition permitted_op (s : Runtime) (o : Op) : bool :=
  match o with
  | OpStart n => startable n s
  | OpUseSignals (Some n) _ => startable n s
  | OpFinish n => finishable n s
  | OpDispose n => finishable n s
  | _ => true
  end.

(** Every call of [ops] is permitted in the state it is made in. *)
Fixpoint permitted (s : Runtime) (ops : list Op) : bool :=
  match ops with
  | [] => true
  | o :: ops' => permitted_op s o && permitted (step o s) ops'
  end.

(** Calls that write the version of store [n]. *)
Definition bumps_version (n : StoreId) (o : Op) : bool :=
  match o with
  | OpCallback m => bool_decide (m = n)
  | OpUnsubscribe m => bool_decide (m = n)
  | _ => false
  end.

(** Calls that run [_start()] of store [n]. *)
Definition starts (n : StoreId) (o : Op) : bool :=
  match o with
  | OpStart m => bool_decide (m = n)
  | OpUseSignals (Some m) _ => bool_decide (m = n)
  | _ => false
  end.

(** Calls that fire the Tracking Effect callback of some store. *)
Definition fires_callback (o : Op) : bool :=
  match o with
  | OpCallback _ => true
  | _ => false
  end.

(** ** The invariant of paired call sequences *)

(** [scope_chain m c l]: following the saved previous stores from [c] visits
    exactly [l]; every store on the way is tracking, its closer puts back the
    effect of the store it saved, and an unmanaged store saved nothing. *)
Inductive scope_chain (m : gmap nat EffectStore)
  : option StoreId → list StoreId → Prop :=
| chain_empty : scope_chain m None []
| chain_push n st l :
    m !! n = Some st →
    doRestore st = true →
    endEffect st = Some (mkEndEffect n (prevStore st)) →
    n ∉ l →
    (_usage st = UNMANAGED → prevStore st = None) →
    scope_chain m (prevStore st) l →
    scope_chain m (Some n) (n :: l).

(** [consistent s l]: [l] is the chain of the register, the reactive core
    records reads for the effect of the store in the register, every store
    off the chain is not tracking, and every store was allocated. *)
Record consistent (s : Runtime) (l : list StoreId) : Prop := mkConsistent {
  cons_chain : scope_chain (stores s) (currentStore s) l;
  cons_context : evalContext s = currentStore s;
  cons_idle : ∀ n st, stores s !! n = Some st → n ∉ l → idle st;
  cons_alloc : ∀ n, is_Some (stores s !! n) → (n < nextStore s)%nat
}.

(** The microtask queue holds the cleanup callback exactly when
    [finalCleanup] is set. *)
Definition reaper_consistent (s : Runtime) : Prop :=
  microtasks s = if finalCleanup s then [FinalCleanupTask] else [].

(** ** Statements of the specification *)

(** The pairs (usage of the active store, usage of the started store) that the
    transition table sends to "capture and restore": all but the four it
    lists by name. *)
Definition capture_and_restore (c n : EffectStoreUsage) : bool :=
  match c, n with
  | UNMANAGED, UNMANAGED => false
  | UNMANAGED, MANAGED_COMPONENT => false
  | MANAGED_COMPONENT, UNMANAGED => false
  | MANAGED_HOOK, UNMANAGED => false
  | _, _ => true
  end.

(** The transition table of section 4.2 of the specification, as an
    operation on the stack of scopes (innermost first): [cu] is the usage of
    the active scope, if there is one, and [nu] the usage of the scope [n]
    being started. *)
Definition table_start (cu : option EffectStoreUsage) (nu : EffectStoreUsage)
    (n : StoreId) (stack : list StoreId) : list StoreId :=
  match cu with
  | None => [n]
  | Some UNMANAGED =>
      match nu with
      | UNMANAGED => [n]
      | MANAGED_COMPONENT => [n]
      | MANAGED_HOOK => n :: stack
      end
  | Some _ =>
      match nu with
      | UNMANAGED => stack
      | _ => n :: stack
      end
  end.

(** The second half of the round-trip property of section 8, read literally:
    the snapshot of a store is the same before and after any calls among
    which no Tracking Effect callback fires. *)
Definition snapshot_stable_without_notification : Prop :=
  ∀ (n : StoreId) (s : Runtime) (ops : list Op),
    is_Some (stores s !! n) →
    (n < nextStore s)%nat →
    forallb (λ o, negb (fires_callback o)) ops = true →
    getSnapshot n (run ops s) = getSnapshot n s.

(** The first sentence of section 4.3, read literally: a call arms the
    cleanup microtask only if it starts a store whose usage is
    [UNMANAGED]. *)
Definition armed_only_by_unmanaged_start : Prop :=
  ∀ (s : Runtime) (o : Op),
    finalCleanup s = false →
    finalCleanup (step o s) = true →
    ∃ r u, o = OpUseSignals r u
           ∧ usage_of (fst (useSignals r u s)) (step o s) = Some UNMANAGED.

(** ** States used as examples *)

(** One managed store, subscribed by the host with callback 7. *)
Definition ex_subscribed : Runtime :=
  subscribe 0 7 (snd (createEffectStore MANAGED_COMPONENT initial)).

(** The closure variables of that store. *)
Definition ex_subscribed_store : EffectStore :=
  {| _usage := MANAGED_COMPONENT; version := 0;
     onChangeNotifyReact := Some 7%nat; doRestore := false;
     prevStore := None; endEffect := None |}.

(** A managed component store is tracking; a managed hook store and an
    unmanaged store exist but are not. *)
Definition ex_component_active : Runtime :=
  run [OpCreate MANAGED_COMPONENT; OpCreate MANAGED_HOOK; OpCreate UNMANAGED;
       OpStart 0] initial.

(** Its three stores. *)
Definition ex_component_store : EffectStore :=
  {| _usage := MANAGED_COMPONENT; version := 0; onChangeNotifyReact := None;
     doRestore := true; prevStore := None;
     endEffect := Some (mkEndEffect 0 None) |}.

Definition ex_hook_store : EffectStore :=
  {| _usage := MANAGED_HOOK; version := 0; onChangeNotifyReact := None;
     doRestore := false; prevStore := None; endEffect := None |}.

Definition ex_unmanaged_store : EffectStore :=
  {| _usage := UNMANAGED; version := 0; onChangeNotifyReact := None;
     doRestore := false; prevStore := None; endEffect := None |}.

(** A component renders: its own managed scope, a managed hook inside it, a
    bare [useSignals()] inside the hook, and the hook returns. *)
Definition ex_render : list Op :=
  [OpUseSignals None MANAGED_COMPONENT; OpUseSignals None MANAGED_HOOK;
   OpUseSignals None UNMANAGED; OpFinish 2; OpFinish 1].

(** Two components with a bare [useSignals()] render one after the other and
    neither calls [f()]. *)
Definition ex_bare : list Op :=
  [OpUseSignals None UNMANAGED; OpSubscribe 0 7; OpUseSignals None UNMANAGED].

(** After [ex_bare], the store of the second component. *)
Definition ex_bare_store : EffectStore :=
  {| _usage := UNMANAGED; version := 0; onChangeNotifyReact := None;
     doRestore := true; prevStore := None;
     endEffect := Some (mkEndEffect 1 None) |}.

From stdpp Require Import strings.

Local Open Scope Z_scope.

(** ** Further observations *)

(** The range of a signed 32-bit integer. *)
Definition int32 (v : Z) : Prop := - 2 ^ 31 ≤ v < 2 ^ 31.

(** Calls that write the host part (version or callback) of store [n]. *)
Definition writes_host (n : StoreId) (o : Op) : bool :=
  match o with
  | OpSubscribe m _ => bool_decide (m = n)
  | OpUnsubscribe m => bool_decide (m = n)
  | OpCallback m => bool_decide (m = n)
  | _ => false
  end.

(** The number of calls in [ops] that write the version of store [n]. *)
Fixpoint bump_count (n : StoreId) (ops : list Op) : nat :=
  match ops with
  | [] => 0%nat
  | o :: ops' =>
      if bumps_version n o then S (bump_count n ops') else bump_count n ops'
  end.



(** Calls that write the host callback of store [n]. *)
Definition writes_callback (n : StoreId) (o : Op) : bool :=
  match o with
  | OpSubscribe m _ => bool_decide (m = n)
  | OpUnsubscribe m => bool_decide (m = n)
  | _ => false
  end.


(** ** Properly nested scopes *)

(** The calls that instrumented components and hooks make when every
    [_start()] is closed by its [f()]: [Call n body rest] is [_start()] of
    store [n], the calls made inside, [f()] of store [n], and then the calls
    that follow. *)
Inductive Calls : Set :=
| Done
| Call (n : StoreId) (body rest : Calls).

Fixpoint flatten (c : Calls) : list Op :=
  match c with
  | Done => []
  | Call n body rest => OpStart n :: flatten body ++ OpFinish n :: flatten rest
  end.

(** The stores that [c] starts. *)
Fixpoint called (c : Calls) : list StoreId :=
  match c with
  | Done => []
  | Call n body rest => n :: called body ++ called rest
  end.

(** The calls to the reactive core that properly nested scopes make. *)
Fixpoint events_of (c : Calls) : list Event :=
  match c with
  | Done => []
  | Call n body rest =>
      EffectStart n :: events_of body ++ EffectEnd n :: events_of rest
  end.

(** Every store that [c] starts exists, is not tracking, is not started
    again inside itself, and meets an empty register or a usage pair of the
    capture-and-restore kind; [outer] is the usage of the store in the
    register where [c] begins. *)
Fixpoint nests_ok (s : Runtime) (outer : option EffectStoreUsage) (c : Calls)
  : bool :=
  match c with
  | Done => true
  | Call n body rest =>
      match stores s !! n with
      | None => false
      | Some this =>
          idleb this
          && match outer with
             | None => true
             | Some cu => capture_and_restore cu (_usage this)
             end
          && bool_decide (n ∉ called body)
          && nests_ok s (Some (_usage this)) body
          && nests_ok s outer rest
      end
  end.

(** The register is empty or holds an allocated store. *)
Definition register_ok (s : Runtime) : Prop :=
  ∀ c, currentStore s = Some c → is_Some (stores s !! c).

(** The state [s] after further calls [evs] to the reactive core and the
    host that changed nothing else. *)
Definition add_trace (evs : list Event) (s : Runtime) : Runtime :=
  {| currentStore := currentStore s; stores := stores s;
     nextStore := nextStore s; finalCleanup := finalCleanup s;
     microtasks := microtasks s; evalContext := evalContext s;
     trace := trace s ++ evs |}.

(** ** The calls to the reactive core, replayed *)

(** Replaying the calls made to the reactive core against the effects that
    are open, innermost first: a start opens its effect, unless it is already
    open; an end closes its effect, provided it is the innermost open one.
    [None] when a call breaks the nesting. *)
Fixpoint replay (evs : list Event) (opened : list StoreId)
  : option (list StoreId) :=
  match evs with
  | [] => Some opened
  | EffectStart e :: evs' =>
      if bool_decide (e ∈ opened) then None else replay evs' (e :: opened)
  | EffectEnd e :: evs' =>
      match opened with
      | o :: opened' =>
          if bool_decide (o = e) then replay evs' opened' else None
      | [] => None
      end
  | _ :: evs' => replay evs' opened
  end.

(** ** [SignalValue] *)

(** [SignalValue({ data })]: a bare [useSignals()], the read of
    [data.value], and [store.f()] in the [finally] block.  The result is the
    store whose effect records the read, if any, and the runtime after the
    block; [storeRef] is as in [useSignals]. *)
Definition SignalValue (storeRef : option StoreId) (s : Runtime)
  : option StoreId * Runtime :=
  let '(store, s1) := useSignals storeRef UNMANAGED s in
  (attributed_to s1, f store s1).

(** The register holds a managed component or managed hook store. *)
Definition managed (u : option EffectStoreUsage) : bool :=
  match u with
  | Some MANAGED_COMPONENT => true
  | Some MANAGED_HOOK => true
  | _ => false
  end.

(** [storeRef.current] of a component that calls a bare [useSignals()]: not
    set yet, or an unmanaged store that is not tracking. *)
Definition bare_ref (storeRef : option StoreId) (s : Runtime) : bool :=
  match storeRef with
  | None => true
  | Some n =>
      match stores s !! n with
      | Some st => bool_decide (_usage st = UNMANAGED) && idleb st
      | None => false
      end
  end.

(** ** [wrapJsx] *)

(** The first argument of a JSX factory: the tag of a host element (a
    string), or anything else, such as a component. *)
Inductive JsxType : Set :=
| HostElement (tag : string)
| OtherType (id : nat).

(** The value of a property: an instance of [Signal], or anything else. *)
Inductive PropValue : Set :=
| SignalProp (sig : nat)
| OtherProp (v : nat).

(** What [wrapJsx] receives: a function, or anything else. *)
Inductive Jsx (R : Type) : Type :=
| JsxFunction (fn : JsxType → option (gmap string PropValue) → list nat → R)
| NotAFunction (v : nat).

Arguments JsxFunction {R} fn.
Arguments NotAFunction {R} v.

(** One iteration of the loop over the properties: [value_of] gives
    [v.value] for every signal. *)
Definition unwrap_prop (value_of : nat → PropValue) (i : string)
    (v : PropValue) : PropValue :=
  if bool_decide (i ≠ "children"%string) then
    match v with
    | SignalProp sig => value_of sig
    | OtherProp _ => v
    end
  else v.

(** The [props] object after the loop of the function that [wrapJsx]
    returns; [None] is a missing ([null] or [undefined]) [props]. *)
Definition wrapped_props (value_of : nat → PropValue) (type : JsxType)
    (props : option (gmap string PropValue))
  : option (gmap string PropValue) :=
  match type, props with
  | HostElement _, Some p =>
      Some (map_imap (λ i v, Some (unwrap_prop value_of i v)) p)
  | _, _ => props
  end.


(** [wrapJsx(jsx)]. *)
Definition wrapJsx {R : Type} (value_of : nat → PropValue) (jsx : Jsx R)
  : Jsx R :=
  match jsx with
  | NotAFunction v => NotAFunction v
  | JsxFunction fn =>
      JsxFunction (λ type props rest,
                     fn type (wrapped_props value_of type props) rest)
  end.

(** A host element [div] with a signal as class name and as children, and a
    plain title; signal 0 holds the plain value 5. *)
Definition ex_props : gmap string PropValue :=
  {[ "className"%string := SignalProp 0; "children"%string := SignalProp 0;
     "title"%string := OtherProp 3 ]}.

Definition ex_value_of (sig : nat) : PropValue := OtherProp 5.

(** * Proofs *)

(** ** Signed 32-bit arithmetic *)

Lemma to_int32_shifted x : to_int32 x = (x + 2 ^ 31) mod 2 ^ 32 - 2 ^ 31.
Proof.
  unfold to_int32. cbv zeta.
  pose proof (Z.mod_pos_bound x (2 ^ 32) ltac:(lia)) as Hr.
  rewrite <- (Zplus_mod_idemp_l x).
  destruct (Z.leb_spec (2 ^ 31) (x mod 2 ^ 32)) as [Hge|Hlt].
  - replace (x mod 2 ^ 32 + 2 ^ 31)
      with (x mod 2 ^ 32 - 2 ^ 31 + 1 * 2 ^ 32) by ring.
    rewrite Z.mod_add, (Z.mod_small (x mod 2 ^ 32 - 2 ^ 31)) by lia. ring.
  - rewrite (Z.mod_small (x mod 2 ^ 32 + 2 ^ 31)) by lia. ring.
Qed.

Lemma to_int32_range x : - 2 ^ 31 ≤ to_int32 x < 2 ^ 31.
Proof.
  rewrite to_int32_shifted.
  pose proof (Z.mod_pos_bound (x + 2 ^ 31) (2 ^ 32) ltac:(lia)). lia.
Qed.

Lemma to_int32_small x : - 2 ^ 31 ≤ x < 2 ^ 31 → to_int32 x = x.
Proof.
  intros Hx. rewrite to_int32_shifted, Z.mod_small; lia.
Qed.

Lemma to_int32_congr x : (to_int32 x - x) mod 2 ^ 32 = 0.
Proof.
  rewrite to_int32_shifted.
  rewrite (Z.mod_eq (x + 2 ^ 31) (2 ^ 32)) by lia.
  replace (x + 2 ^ 31 - 2 ^ 32 * ((x + 2 ^ 31) / 2 ^ 32) - 2 ^ 31 - x)
    with (- ((x + 2 ^ 31) / 2 ^ 32) * 2 ^ 32) by ring.
  apply Z.mod_mul. lia.
Qed.

Lemma to_int32_succ_mod v : (to_int32 (v + 1) - v) mod 2 ^ 32 = 1.
Proof.
  replace (to_int32 (v + 1) - v) with (1 + (to_int32 (v + 1) - (v + 1)))
    by ring.
  rewrite <- Zplus_mod_idemp_r, to_int32_congr. reflexivity.
Qed.

Lemma to_int32_succ_ne v : to_int32 (v + 1) ≠ v.
Proof.
  intros H. pose proof (to_int32_succ_mod v) as Hm.
  rewrite H, Z.sub_diag in Hm. discriminate Hm.
Qed.

(** ** How each method writes the map of stores *)

Lemma stores_upd n g s : stores (upd n g s) = alter g n (stores s).
Proof. reflexivity. Qed.

Lemma stores_f n s :
  stores (f n s) = alter (with_tracking false None None) n (stores s).
Proof.
  unfold f. destruct (stores s !! n) as [st|] eqn:E.
  - destruct (endEffect st), (doRestore st); reflexivity.
  - symmetry. by apply alter_id'.
Qed.

Lemma stores_begin_tracking n p s :
  stores (begin_tracking n p s)
  = alter (with_tracking true p (Some (mkEndEffect n (evalContext s)))) n
      (stores s).
Proof. reflexivity. Qed.

Lemma host_part_alter_tracking r p e n (m : gmap nat EffectStore) k :
  host_part <$> alter (with_tracking r p e) n m !! k = host_part <$> m !! k.
Proof.
  rewrite lookup_alter. case_decide; [subst|done].
  by destruct (m !! k).
Qed.

Lemma host_part_f n s k :
  host_part <$> stores (f n s) !! k = host_part <$> stores s !! k.
Proof. rewrite stores_f. apply host_part_alter_tracking. Qed.

Lemma host_part_begin_tracking n p s k :
  host_part <$> stores (begin_tracking n p s) !! k
  = host_part <$> stores s !! k.
Proof. rewrite stores_begin_tracking. apply host_part_alter_tracking. Qed.

Lemma host_part__start n s k :
  host_part <$> stores (_start n s) !! k = host_part <$> stores s !! k.
Proof.
  unfold _start.
  destruct (stores s !! n) as [this|]; [|done].
  destruct (currentStore s) as [c|]; [|apply host_part_begin_tracking].
  destruct (stores s !! c) as [cur|]; [|done].
  destruct (_usage cur), (_usage this);
    rewrite ?host_part_begin_tracking, ?host_part_f; done.
Qed.

Lemma nextStore_f n s : nextStore (f n s) = nextStore s.
Proof.
  unfold f. destruct (stores s !! n) as [st|]; [|done].
  by destruct (endEffect st), (doRestore st).
Qed.

Lemma nextStore__start n s : nextStore (_start n s) = nextStore s.
Proof.
  unfold _start.
  destruct (stores s !! n) as [this|]; [|done].
  destruct (currentStore s) as [c|]; [|done].
  destruct (stores s !! c) as [cur|]; [|done].
  destruct (_usage cur), (_usage this); simpl; rewrite ?nextStore_f; done.
Qed.

Lemma host_part_step_microtask s k :
  host_part <$> stores (step_microtask s) !! k = host_part <$> stores s !! k.
Proof.
  unfold step_microtask. destruct (microtasks s) as [|[] q]; [done|].
  simpl. destruct (currentStore s); [|done]. by rewrite host_part_f.
Qed.

Lemma nextStore_step_microtask s : nextStore (step_microtask s) = nextStore s.
Proof.
  unfold step_microtask. destruct (microtasks s) as [|[] q]; [done|].
  simpl. destruct (currentStore s); [|done]. by rewrite nextStore_f.
Qed.

Lemma host_part_drain_fuel k s i :
  host_part <$> stores (drain_fuel k s) !! i = host_part <$> stores s !! i.
Proof.
  revert s. induction k as [|k IH]; intros s; [done|].
  simpl. by rewrite IH, host_part_step_microtask.
Qed.

Lemma nextStore_drain_fuel k s : nextStore (drain_fuel k s) = nextStore s.
Proof.
  revert s. induction k as [|k IH]; intros s; [done|].
  simpl. by rewrite IH, nextStore_step_microtask.
Qed.

Lemma stores_ensureFinalCleanup s :
  stores (ensureFinalCleanup s) = stores s.
Proof. unfold ensureFinalCleanup. by destruct (finalCleanup s). Qed.

Lemma nextStore_ensureFinalCleanup s :
  nextStore (ensureFinalCleanup s) = nextStore s.
Proof. unfold ensureFinalCleanup. by destruct (finalCleanup s). Qed.

Lemma currentStore_ensureFinalCleanup s :
  currentStore (ensureFinalCleanup s) = currentStore s.
Proof. unfold ensureFinalCleanup. by destruct (finalCleanup s). Qed.

Lemma evalContext_ensureFinalCleanup s :
  evalContext (ensureFinalCleanup s) = evalContext s.
Proof. unfold ensureFinalCleanup. by destruct (finalCleanup s). Qed.

(** A call that is neither the effect callback of store [n] nor its
    unsubscribe function leaves the version of [n] alone. *)
Lemma step_keeps_version n o s :
  (n < nextStore s)%nat →
  bumps_version n o = false →
  getSnapshot n (step o s) = getSnapshot n s
  ∧ (n < nextStore (step o s))%nat.
Proof.
  intros Hn Hb. unfold getSnapshot.
  assert (Hhp : ∀ s1 s2 : Runtime,
    host_part <$> stores s1 !! n = host_part <$> stores s2 !! n →
    version <$> stores s1 !! n = version <$> stores s2 !! n).
  { intros s1 s2 H.
    destruct (stores s1 !! n), (stores s2 !! n);
      unfold host_part in *; simpl in *; congruence. }
  destruct o as [u|m|m|m|r u|m cb|m|m|m|]; simpl in *.
  - split; [|lia]. rewrite lookup_insert_ne by lia. done.
  - rewrite nextStore__start. split; [|done]. apply Hhp, host_part__start.
  - rewrite nextStore_f. split; [|done]. apply Hhp, host_part_f.
  - unfold symDispose. rewrite nextStore_f. split; [|done].
    apply Hhp, host_part_f.
  - unfold useSignals. destruct r as [m|]; simpl.
    + rewrite nextStore__start, nextStore_ensureFinalCleanup. split; [|done].
      erewrite Hhp by apply host_part__start.
      by rewrite stores_ensureFinalCleanup.
    + rewrite nextStore__start. simpl.
      rewrite nextStore_ensureFinalCleanup. split; [|lia].
      erewrite Hhp by apply host_part__start. simpl.
      rewrite lookup_insert_ne by lia.
      by rewrite stores_ensureFinalCleanup.
  - split; [|done]. unfold subscribe; simpl. rewrite lookup_alter.
    case_decide; [subst|done]. by destruct (stores s !! n).
  - apply bool_decide_eq_false in Hb.
    unfold unsubscribe. destruct (stores s !! m); [|done]. simpl.
    split; [|done]. by rewrite !lookup_alter_ne.
  - apply bool_decide_eq_false in Hb.
    unfold _callback. destruct (stores s !! m) as [st|]; [|done].
    destruct (onChangeNotifyReact st); simpl; split; try done;
      by rewrite lookup_alter_ne.
  - done.
  - unfold drainMicrotasks. rewrite nextStore_drain_fuel. split; [|done].
    apply Hhp, host_part_drain_fuel.
Qed.

Lemma run_keeps_version n ops s :
  (n < nextStore s)%nat →
  forallb (λ o, negb (bumps_version n o)) ops = true →
  getSnapshot n (run ops s) = getSnapshot n s.
Proof.
  revert s. induction ops as [|o ops IH]; intros s Hn Hops; [done|].
  simpl in *. apply andb_true_iff in Hops as [Ho Hops].
  apply negb_true_iff in Ho.
  destruct (step_keeps_version n o s Hn Ho) as [Hv Hn'].
  rewrite IH by done. exact Hv.
Qed.

(** ** The version counter and the host adapter *)

Lemma run_app ops1 ops2 s : run (ops1 ++ ops2) s = run ops2 (run ops1 s).
Proof.
  revert s. induction ops1 as [|o ops1 IH]; intros s; [done|]. apply IH.
Qed.

Lemma getSnapshot__callback n s st :
  stores s !! n = Some st →
  getSnapshot n (_callback n s) = Some (to_int32 (version st + 1)).
Proof.
  intros E. unfold getSnapshot, _callback. rewrite E.
  destruct (onChangeNotifyReact st); simpl;
    by rewrite lookup_alter_eq, E.
Qed.

Lemma getSnapshot_unsubscribe n s st :
  stores s !! n = Some st →
  getSnapshot n (unsubscribe n s) = Some (to_int32 (version st + 1)).
Proof.
  intros E. unfold getSnapshot, unsubscribe. rewrite E. simpl.
  by rewrite !lookup_alter_eq, E.
Qed.

(** C7: every invocation of the Tracking Effect callback of a store adds one
    to the version of the store, wrapping as a signed 32-bit integer, and
    calls the host callback within that invocation exactly when one is
    registered; nothing else of the runtime moves. *)
Theorem callback_bumps_version_and_notifies n s st :
  stores s !! n = Some st →
  getSnapshot n (_callback n s) = Some (to_int32 (version st + 1))
  ∧ (- 2 ^ 31 ≤ version st < 2 ^ 31 - 1 →
     getSnapshot n (_callback n s) = Some (version st + 1))
  ∧ (version st = 2 ^ 31 - 1 →
     getSnapshot n (_callback n s) = Some (- 2 ^ 31))
  ∧ (∀ cb, onChangeNotifyReact st = Some cb →
     trace (_callback n s) = trace s ++ [NotifyReact cb])
  ∧ (onChangeNotifyReact st = None → trace (_callback n s) = trace s)
  ∧ registered n (_callback n s) = Some (onChangeNotifyReact st)
  ∧ currentStore (_callback n s) = currentStore s
  ∧ evalContext (_callback n s) = evalContext s.
Proof.
  intros E. pose proof (getSnapshot__callback n s st E) as Hv.
  split; [exact Hv|]. split; [|split].
  - intros Hr. rewrite Hv, to_int32_small by lia. done.
  - intros Hmax. rewrite Hv, Hmax. reflexivity.
  - unfold registered, _callback. rewrite E.
    destruct (onChangeNotifyReact st) as [cb0|] eqn:Ecb; simpl;
      rewrite lookup_alter_eq, E; simpl; rewrite Ecb;
      repeat split; try done; congruence.
Qed.

Lemma callback_bumps_version_and_notifies_witness :
  stores ex_subscribed !! 0%nat = Some ex_subscribed_store
  ∧ getSnapshot 0 (_callback 0 ex_subscribed) = Some 1
  ∧ trace (_callback 0 ex_subscribed)
    = trace ex_subscribed ++ [NotifyReact 7].
Proof.
  destruct (callback_bumps_version_and_notifies 0 ex_subscribed
              ex_subscribed_store eq_refl) as (Hv & _ & _ & Hn & _).
  split; [reflexivity|]. split; [exact Hv | exact (Hn 7%nat eq_refl)].
Defined.

(** C6: the function returned by [subscribe] adds one to the version
    (modulo 2^32) whether or not a callback is registered, and clears the
    callback; so after subscribe, unsubscribe and subscribe again, with
    nothing else in between, the snapshot differs from the one read just
    before unsubscribing. *)
Theorem unsubscribe_rotates_version n s st cb cb' :
  stores s !! n = Some st →
  getSnapshot n (unsubscribe n s) = Some (to_int32 (version st + 1))
  ∧ registered n (unsubscribe n s) = Some None
  ∧ getSnapshot n (subscribe n cb s) = Some (version st)
  ∧ getSnapshot n (subscribe n cb' (unsubscribe n (subscribe n cb s)))
    = Some (to_int32 (version st + 1))
  ∧ getSnapshot n (subscribe n cb' (unsubscribe n (subscribe n cb s)))
    ≠ getSnapshot n (subscribe n cb s)
  ∧ (to_int32 (version st + 1) - version st) mod 2 ^ 32 = 1.
Proof.
  intros E.
  assert (Hsub : ∀ c s', getSnapshot n (subscribe n c s') = getSnapshot n s').
  { intros c s'. unfold getSnapshot, subscribe. simpl.
    rewrite lookup_alter_eq. by destruct (stores s' !! n). }
  assert (E1 : stores (subscribe n cb s) !! n
               = Some (with_onChange (Some cb) st)).
  { unfold subscribe. simpl. by rewrite lookup_alter_eq, E. }
  split; [by apply getSnapshot_unsubscribe|]. split; [|split; [|split]].
  - unfold registered, unsubscribe. rewrite E. simpl.
    by rewrite !lookup_alter_eq, E.
  - rewrite Hsub. unfold getSnapshot. by rewrite E.
  - rewrite Hsub. by rewrite (getSnapshot_unsubscribe _ _ _ E1).
  - split; [|apply to_int32_succ_mod].
    rewrite !Hsub, (getSnapshot_unsubscribe _ _ _ E1). simpl.
    unfold getSnapshot. rewrite E. simpl.
    intros H. injection H as H. by apply to_int32_succ_ne in H.
Qed.

Lemma unsubscribe_rotates_version_witness :
  stores ex_subscribed !! 0%nat = Some ex_subscribed_store
  ∧ getSnapshot 0 (subscribe 0 8 (unsubscribe 0 (subscribe 0 7 ex_subscribed)))
    ≠ getSnapshot 0 (subscribe 0 7 ex_subscribed).
Proof.
  split; [reflexivity|].
  exact (proj1 (proj2 (proj2 (proj2 (proj2
    (unsubscribe_rotates_version 0 ex_subscribed ex_subscribed_store
       7%nat 8%nat eq_refl)))))).
Defined.

(** C10: a freshly created effect store has snapshot 0, and the snapshot is
    still 0 after any calls none of which is the Tracking Effect callback of
    that store or its unsubscribe function; the first such call makes it 1. *)
Theorem fresh_store_version_zero usage s ops :
  forallb (λ o, negb (bumps_version (fst (createEffectStore usage s)) o)) ops
  = true →
  let n := fst (createEffectStore usage s) in
  let s0 := snd (createEffectStore usage s) in
  getSnapshot n s0 = Some 0
  ∧ getSnapshot n (run ops s0) = Some 0
  ∧ getSnapshot n (run (ops ++ [OpCallback n]) s0) = Some 1
  ∧ getSnapshot n (run (ops ++ [OpUnsubscribe n]) s0) = Some 1.
Proof.
  intros Hops n s0.
  assert (H0 : getSnapshot n s0 = Some 0).
  { unfold getSnapshot, s0, n. simpl. by rewrite lookup_insert_eq. }
  assert (Hrun : getSnapshot n (run ops s0) = Some 0).
  { rewrite run_keeps_version; [done| |done]. unfold s0, n. simpl. lia. }
  split; [done|]. split; [done|].
  unfold getSnapshot in Hrun.
  destruct (stores (run ops s0) !! n) as [st|] eqn:E; [|done].
  simpl in Hrun. injection Hrun as Hrun.
  rewrite !run_app. simpl.
  rewrite (getSnapshot__callback _ _ _ E), (getSnapshot_unsubscribe _ _ _ E).
  by rewrite Hrun.
Qed.

Lemma fresh_store_version_zero_witness :
  getSnapshot 0
    (run [OpSubscribe 0 7; OpStart 0; OpFinish 0; OpDrain]
       (snd (createEffectStore UNMANAGED initial))) = Some 0
  ∧ getSnapshot 0
      (run ([OpSubscribe 0 7; OpStart 0; OpFinish 0; OpDrain]
            ++ [OpUnsubscribe 0%nat])
         (snd (createEffectStore UNMANAGED initial))) = Some 1.
Proof.
  destruct (fresh_store_version_zero UNMANAGED initial
              [OpSubscribe 0 7; OpStart 0; OpFinish 0; OpDrain] eq_refl)
    as (_ & H1 & _ & H2).
  split; [exact H1 | exact H2].
Defined.

(** C8, as the specification states it, fails: unsubscribing changes the
    snapshot although no Tracking Effect callback fired. *)
Lemma unsubscribe_changes_snapshot_without_notification :
  ¬ snapshot_stable_without_notification.
Proof.
  intros H.
  specialize (H 0%nat ex_subscribed [OpUnsubscribe 0%nat]).
  assert (Hs : is_Some (stores ex_subscribed !! 0%nat)) by (by eexists).
  specialize (H Hs ltac:(simpl; lia) eq_refl).
  vm_compute in H. discriminate H.
Qed.

(** C8, amended: every firing of the Tracking Effect callback of a store
    changes its snapshot (by one, modulo 2^32), and the snapshot is the same
    before and after any calls none of which is that callback or the
    unsubscribe function of the store. *)
Theorem snapshot_changes_exactly_on_bumps n s ops v :
  (n < nextStore s)%nat →
  getSnapshot n s = Some v →
  forallb (λ o, negb (bumps_version n o)) ops = true →
  getSnapshot n (run ops s) = Some v
  ∧ getSnapshot n (_callback n (run ops s)) = Some (to_int32 (v + 1))
  ∧ getSnapshot n (_callback n (run ops s)) ≠ getSnapshot n (run ops s)
  ∧ (to_int32 (v + 1) - v) mod 2 ^ 32 = 1.
Proof.
  intros Hn Hv Hops.
  assert (Hrun : getSnapshot n (run ops s) = Some v)
    by (by rewrite run_keeps_version).
  split; [done|].
  unfold getSnapshot in Hrun.
  destruct (stores (run ops s) !! n) as [st|] eqn:E; [|done].
  simpl in Hrun. injection Hrun as Hrun. subst v.
  rewrite (getSnapshot__callback _ _ _ E).
  unfold getSnapshot. rewrite E. simpl.
  split; [done|]. split; [|apply to_int32_succ_mod].
  intros H. injection H as H. by apply to_int32_succ_ne in H.
Qed.

Lemma snapshot_changes_exactly_on_bumps_witness :
  getSnapshot 0
    (run [OpStart 0; OpFinish 0; OpSubscribe 0 9] ex_subscribed) = Some 0
  ∧ getSnapshot 0
      (_callback 0 (run [OpStart 0; OpFinish 0; OpSubscribe 0 9] ex_subscribed))
    = Some 1.
Proof.
  destruct (snapshot_changes_exactly_on_bumps 0 ex_subscribed
              [OpStart 0; OpFinish 0; OpSubscribe 0 9] 0
              ltac:(simpl; lia) eq_refl eq_refl) as (H1 & H2 & _).
  split; [exact H1 | exact H2].
Defined.

(** ** What [f] and the tracking branches of [_start] do to each field *)

Lemma set_stores_same s : set_stores (stores s) s = s.
Proof. by destruct s. Qed.

Lemma currentStore_f n s st :
  stores s !! n = Some st →
  currentStore (f n s) = if doRestore st then prevStore st else currentStore s.
Proof.
  intros E. unfold f. rewrite E.
  by destruct (endEffect st), (doRestore st).
Qed.

Lemma evalContext_f n s st :
  stores s !! n = Some st →
  evalContext (f n s) = match endEffect st with
                        | Some c => ee_prevContext c
                        | None => evalContext s
                        end.
Proof.
  intros E. unfold f. rewrite E.
  by destruct (endEffect st), (doRestore st).
Qed.

Lemma trace_f n s st :
  stores s !! n = Some st →
  trace (f n s) = trace s ++ match endEffect st with
                             | Some c => [EffectEnd (ee_effect c)]
                             | None => []
                             end.
Proof.
  intros E. unfold f. rewrite E.
  destruct (endEffect st), (doRestore st); simpl; by rewrite ?app_nil_r.
Qed.

Lemma lookup_f n s k :
  stores (f n s) !! k
  = if decide (n = k) then with_tracking false None None <$> stores s !! n
    else stores s !! k.
Proof. rewrite stores_f. apply lookup_alter. Qed.

Lemma lookup_begin_tracking n p s k :
  stores (begin_tracking n p s) !! k
  = if decide (n = k)
    then with_tracking true p (Some (mkEndEffect n (evalContext s)))
           <$> stores s !! n
    else stores s !! k.
Proof. rewrite stores_begin_tracking. apply lookup_alter. Qed.

Lemma idle_idleb st : idle st ↔ idleb st = true.
Proof.
  unfold idle, idleb. destruct st as [u v cb r p e]; simpl.
  rewrite !andb_true_iff, negb_true_iff, !bool_decide_eq_true. tauto.
Qed.

(** Finishing a store that is not tracking changes nothing. *)
Lemma f_idle n s st : stores s !! n = Some st → idle st → f n s = s.
Proof.
  intros E (Hr & Hp & He). unfold f. rewrite E, He, Hr. unfold upd.
  rewrite alter_id; [apply set_stores_same|].
  intros st' E'. rewrite E in E'. injection E' as <-.
  destruct st; simpl in *. by subst.
Qed.

Lemma f_makes_idle n s st :
  stores s !! n = Some st →
  stores (f n s) !! n = Some (with_tracking false None None st).
Proof. intros E. rewrite lookup_f, decide_True by done. by rewrite E. Qed.

Lemma f_twice n s : f n (f n s) = f n s.
Proof.
  destruct (stores s !! n) as [st|] eqn:E.
  - eapply f_idle; [by apply f_makes_idle|]. by repeat split.
  - assert (Hs : f n s = s) by (unfold f; by rewrite E). by rewrite !Hs.
Qed.

Lemma idleb_alter n k g (m : gmap nat EffectStore) :
  (k = n → ∀ st, idleb st = true → idleb (g st) = true) →
  idleb <$> m !! n = Some true →
  idleb <$> alter g k m !! n = Some true.
Proof.
  intros Hg Hn. rewrite lookup_alter. case_decide as Hk; [subst k|done].
  destruct (m !! n) as [st|]; [|done]. simpl in *.
  injection Hn as Hn. by rewrite Hg.
Qed.

Lemma idleb_f n k s :
  idleb <$> stores s !! n = Some true →
  idleb <$> stores (f k s) !! n = Some true.
Proof. intros H. rewrite stores_f. by apply idleb_alter. Qed.

Lemma idleb__start n k s :
  k ≠ n →
  idleb <$> stores s !! n = Some true →
  idleb <$> stores (_start k s) !! n = Some true.
Proof.
  intros Hk H. unfold _start.
  destruct (stores s !! k) as [this|]; [|done].
  destruct (currentStore s) as [c|].
  - destruct (stores s !! c) as [cur|]; [|done].
    destruct (_usage cur), (_usage this); try done;
      rewrite stores_begin_tracking; apply idleb_alter; try done;
      by apply idleb_f.
  - rewrite stores_begin_tracking. by apply idleb_alter.
Qed.

Lemma idleb_drain_fuel n k s :
  idleb <$> stores s !! n = Some true →
  idleb <$> stores (drain_fuel k s) !! n = Some true.
Proof.
  revert s. induction k as [|k IH]; intros s H; [done|].
  simpl. apply IH. unfold step_microtask.
  destruct (microtasks s) as [|[] q]; [done|]. simpl.
  destruct (currentStore s); [|done]. by apply idleb_f.
Qed.

(** A call that does not start store [n] leaves it not tracking. *)
Lemma step_keeps_idle n o s :
  (n < nextStore s)%nat →
  starts n o = false →
  idleb <$> stores s !! n = Some true →
  idleb <$> stores (step o s) !! n = Some true
  ∧ (n < nextStore (step o s))%nat.
Proof.
  intros Hn Hs H.
  destruct o as [u|m|m|m|r u|m cb|m|m|m|]; simpl in *.
  - split; [|lia]. by rewrite lookup_insert_ne by lia.
  - apply bool_decide_eq_false in Hs. rewrite nextStore__start.
    split; [|done]. by apply idleb__start.
  - rewrite nextStore_f. split; [|done]. by apply idleb_f.
  - unfold symDispose. rewrite nextStore_f. split; [|done]. by apply idleb_f.
  - unfold useSignals. destruct r as [m|]; simpl.
    + apply bool_decide_eq_false in Hs.
      rewrite nextStore__start, nextStore_ensureFinalCleanup. split; [|done].
      apply idleb__start; [done|]. by rewrite stores_ensureFinalCleanup.
    + rewrite nextStore__start. simpl.
      rewrite nextStore_ensureFinalCleanup. split; [|lia].
      apply idleb__start; [lia|]. simpl.
      rewrite lookup_insert_ne by lia. by rewrite stores_ensureFinalCleanup.
  - split; [|done]. unfold subscribe. simpl. by apply idleb_alter.
  - unfold unsubscribe. destruct (stores s !! m); [|done]. simpl.
    split; [|done]. by do 2 (apply idleb_alter; [done|]).
  - unfold _callback. destruct (stores s !! m) as [st|]; [|done].
    destruct (onChangeNotifyReact st); simpl; split; try done;
      by apply idleb_alter.
  - done.
  - unfold drainMicrotasks. rewrite nextStore_drain_fuel. split; [|done].
    by apply idleb_drain_fuel.
Qed.

Lemma run_keeps_idle n ops s :
  (n < nextStore s)%nat →
  forallb (λ o, negb (starts n o)) ops = true →
  idleb <$> stores s !! n = Some true →
  idleb <$> stores (run ops s) !! n = Some true.
Proof.
  revert s. induction ops as [|o ops IH]; intros s Hn Hops H; [done|].
  simpl in *. apply andb_true_iff in Hops as [Ho Hops].
  apply negb_true_iff in Ho.
  destruct (step_keeps_idle n o s Hn Ho H) as [H' Hn'].
  by apply IH.
Qed.

(** C9: [f()] on a store whose [_start()] was never called leaves the whole
    runtime as it was, and a second [f()] adds nothing to the first. *)
Theorem finish_without_start_or_twice usage s ops n' s' :
  forallb (λ o, negb (starts (fst (createEffectStore usage s)) o)) ops
  = true →
  let n := fst (createEffectStore usage s) in
  let s1 := run ops (snd (createEffectStore usage s)) in
  f n s1 = s1
  ∧ f n' (f n' s') = f n' s'
  ∧ (∀ st, stores s' !! n' = Some st → idle st → f n' s' = s').
Proof.
  intros Hops n s1. split; [|split].
  - assert (H : idleb <$> stores s1 !! n = Some true).
    { subst n s1. apply run_keeps_idle; [simpl; lia|done|].
      simpl. by rewrite lookup_insert_eq. }
    destruct (stores s1 !! n) as [st|] eqn:E; [|done].
    simpl in H. injection H as H.
    eapply f_idle; [done|]. by apply idle_idleb.
  - apply f_twice.
  - intros st. apply f_idle.
Qed.

Lemma finish_without_start_or_twice_witness :
  f 0 (run [OpSubscribe 0 7; OpCreate MANAGED_HOOK; OpStart 1; OpCallback 0]
         (snd (createEffectStore UNMANAGED initial)))
  = run [OpSubscribe 0 7; OpCreate MANAGED_HOOK; OpStart 1; OpCallback 0]
      (snd (createEffectStore UNMANAGED initial))
  ∧ f 1 (f 1 (run [OpCreate MANAGED_HOOK; OpCreate MANAGED_HOOK;
                   OpStart 0; OpStart 1] initial))
    = f 1 (run [OpCreate MANAGED_HOOK; OpCreate MANAGED_HOOK;
                OpStart 0; OpStart 1] initial).
Proof.
  destruct (finish_without_start_or_twice UNMANAGED initial
              [OpSubscribe 0 7; OpCreate MANAGED_HOOK; OpStart 1; OpCallback 0]
              1%nat
              (run [OpCreate MANAGED_HOOK; OpCreate MANAGED_HOOK;
                    OpStart 0; OpStart 1] initial) eq_refl)
    as (H1 & H2 & _).
  split; [exact H1 | exact H2].
Defined.

(** ** The transitions of [_start], one state at a time *)

Lemma _start_capture s c n cur this :
  currentStore s = Some c →
  stores s !! c = Some cur →
  stores s !! n = Some this →
  capture_and_restore (_usage cur) (_usage this) = true →
  _start n s = begin_tracking n (Some c) s.
Proof.
  intros Hc Ec En Hp. unfold _start. rewrite En, Hc, Ec.
  by destruct (_usage cur), (_usage this).
Qed.

Lemma _start_sibling s c n cur this :
  currentStore s = Some c →
  stores s !! c = Some cur →
  stores s !! n = Some this →
  _usage cur = UNMANAGED →
  _usage this = UNMANAGED ∨ _usage this = MANAGED_COMPONENT →
  _start n s = begin_tracking n None (f c s).
Proof.
  intros Hc Ec En Hu Ht. unfold _start. rewrite En, Hc, Ec, Hu.
  by destruct Ht as [-> | ->].
Qed.

Lemma _start_folded s c n cur this :
  currentStore s = Some c →
  stores s !! c = Some cur →
  stores s !! n = Some this →
  _usage this = UNMANAGED →
  _usage cur = MANAGED_COMPONENT ∨ _usage cur = MANAGED_HOOK →
  _start n s = s.
Proof.
  intros Hc Ec En Hu Ht. unfold _start. rewrite En, Hc, Ec, Hu.
  by destruct Ht as [-> | ->].
Qed.

Lemma _start_first s n this :
  currentStore s = None →
  stores s !! n = Some this →
  _start n s = begin_tracking n None s.
Proof. intros Hc En. unfold _start. by rewrite En, Hc. Qed.

Lemma f_begin_tracking n p s this :
  stores s !! n = Some this →
  currentStore (f n (begin_tracking n p s)) = p
  ∧ evalContext (f n (begin_tracking n p s)) = evalContext s
  ∧ trace (f n (begin_tracking n p s))
    = trace s ++ [EffectStart n; EffectEnd n]
  ∧ is_idle n (f n (begin_tracking n p s)) = true.
Proof.
  intros En.
  assert (E1 : stores (begin_tracking n p s) !! n
               = Some (with_tracking true p
                         (Some (mkEndEffect n (evalContext s))) this)).
  { rewrite lookup_begin_tracking, decide_True by done. by rewrite En. }
  rewrite (currentStore_f _ _ _ E1), (evalContext_f _ _ _ E1),
    (trace_f _ _ _ E1). simpl.
  repeat split; [by rewrite <- app_assoc|].
  unfold is_idle. by rewrite (f_makes_idle _ _ _ E1).
Qed.

(** C2: when [_start()] of store [n] runs while store [c] is in the register
    and the two usages are not one of the four pairs the table lists by name,
    [c] is saved and [n] becomes the active store; [f()] of [n] then stops
    the tracking of [n] and puts [c] back.  Whatever [_start()] saved is what
    [f()] puts back; when it saved nothing, the register ends up empty. *)
Theorem capture_then_restore s c n cur this :
  currentStore s = Some c →
  stores s !! c = Some cur →
  stores s !! n = Some this →
  capture_and_restore (_usage cur) (_usage this) = true →
  (currentStore (_start n s) = Some n
   ∧ saved_previous n (_start n s) = Some (Some c)
   ∧ attributed_to (_start n s) = Some n
   ∧ trace (_start n s) = trace s ++ [EffectStart n])
  ∧ (currentStore (f n (_start n s)) = Some c
     ∧ attributed_to (f n (_start n s)) = attributed_to s
     ∧ trace (f n (_start n s)) = trace s ++ [EffectStart n; EffectEnd n]
     ∧ is_idle n (f n (_start n s)) = true)
  ∧ (∀ s2 st, stores s2 !! n = Some st → doRestore st = true →
       currentStore (f n s2) = prevStore st)
  ∧ (∀ s0, currentStore s0 = None → is_Some (stores s0 !! n) →
       saved_previous n (_start n s0) = Some None
       ∧ currentStore (f n (_start n s0)) = None).
Proof.
  intros Hc Ec En Hp.
  rewrite (_start_capture s c n cur this) by done.
  split; [|split; [|split]].
  - repeat split. unfold saved_previous.
    rewrite lookup_begin_tracking, decide_True by done. by rewrite En.
  - by apply (f_begin_tracking n (Some c) s this).
  - intros s2 st E2 Hr. by rewrite (currentStore_f _ _ _ E2), Hr.
  - intros s0 H0 [st0 E0]. rewrite (_start_first s0 n st0) by done.
    split; [|by apply (f_begin_tracking n None s0 st0)].
    unfold saved_previous.
    rewrite lookup_begin_tracking, decide_True by done. by rewrite E0.
Qed.

Lemma capture_then_restore_witness :
  currentStore ex_component_active = Some 0%nat
  ∧ currentStore (_start 1 ex_component_active) = Some 1%nat
  ∧ saved_previous 1 (_start 1 ex_component_active) = Some (Some 0%nat)
  ∧ currentStore (f 1 (_start 1 ex_component_active)) = Some 0%nat.
Proof.
  destruct (capture_then_restore ex_component_active 0 1
              ex_component_store ex_hook_store
              eq_refl eq_refl eq_refl eq_refl)
    as ((H1 & H2 & _) & (H3 & _) & _).
  split; [reflexivity|]. split; [exact H1|]. split; [exact H2 | exact H3].
Defined.

(** C4: when [_start()] of an unmanaged store runs while a managed component
    or managed hook store is in the register, nothing changes: the managed
    store stays active and the unmanaged one does not begin tracking.  A
    later [f()] on the unmanaged store, which is therefore not tracking,
    changes nothing either, at once or after any calls that do not start
    that store again; in particular it neither writes the register nor calls
    the closer of the managed store. *)
Theorem unmanaged_in_managed_is_folded s c n cur this :
  currentStore s = Some c →
  stores s !! c = Some cur →
  stores s !! n = Some this →
  _usage cur = MANAGED_COMPONENT ∨ _usage cur = MANAGED_HOOK →
  _usage this = UNMANAGED →
  _start n s = s
  ∧ (idle this → f n (_start n s) = s)
  ∧ (idle this → (n < nextStore s)%nat →
     ∀ ops, forallb (λ o, negb (starts n o)) ops = true →
       f n (run ops (_start n s)) = run ops (_start n s))
  ∧ ((c < nextStore s)%nat →
     let n' := fst (useSignals None UNMANAGED s) in
     let s' := snd (useSignals None UNMANAGED s) in
     currentStore s' = Some c
     ∧ attributed_to s' = attributed_to s
     ∧ stores s' !! c = Some cur
     ∧ trace s' = trace s ++ [EffectCreate n']
     ∧ f n' s' = s').
Proof.
  intros Hc Ec En Hcu Hu.
  assert (Hs : _start n s = s) by by apply (_start_folded s c n cur this).
  split; [done|]. split; [|split].
  - intros Hi. rewrite Hs. by apply (f_idle n s this).
  - intros Hi Hlt ops Hops. rewrite Hs.
    assert (H : idleb <$> stores (run ops s) !! n = Some true).
    { apply run_keeps_idle; [done|done|].
      rewrite En. simpl. f_equal. by apply idle_idleb. }
    destruct (stores (run ops s) !! n) as [st|] eqn:E; [|done].
    simpl in H. injection H as H.
    eapply f_idle; [done|]. by apply idle_idleb.
  - intros Hlt n' s'.
    set (s0 := snd (createEffectStore UNMANAGED (ensureFinalCleanup s))).
    set (st0 := {| _usage := UNMANAGED; version := 0;
                   onChangeNotifyReact := None; doRestore := false;
                   prevStore := None; endEffect := None |}).
    assert (Hn' : n' = nextStore s).
    { subst n'. unfold useSignals. simpl.
      by rewrite nextStore_ensureFinalCleanup. }
    assert (E0 : stores s0 !! n' = Some st0).
    { rewrite Hn'. subst s0. simpl.
      by rewrite nextStore_ensureFinalCleanup, lookup_insert_eq. }
    assert (Ec0 : stores s0 !! c = Some cur).
    { subst s0. simpl.
      rewrite nextStore_ensureFinalCleanup, lookup_insert_ne by lia.
      by rewrite stores_ensureFinalCleanup. }
    assert (Hc0 : currentStore s0 = Some c).
    { subst s0. simpl. by rewrite currentStore_ensureFinalCleanup. }
    assert (Hs' : s' = s0).
    { subst s'. change (_start n' s0 = s0).
      by apply (_start_folded s0 c n' cur st0). }
    rewrite Hs'. split; [done|]. split.
    { subst s0. unfold attributed_to. simpl.
      by rewrite evalContext_ensureFinalCleanup. }
    split; [done|]. split.
    { subst s0. simpl. rewrite nextStore_ensureFinalCleanup, <- Hn'.
      unfold ensureFinalCleanup. by destruct (finalCleanup s). }
    by apply (f_idle n' s0 st0).
Qed.

Lemma unmanaged_in_managed_is_folded_witness :
  currentStore ex_component_active = Some 0%nat
  ∧ _start 2 ex_component_active = ex_component_active
  ∧ f 2 (_start 2 ex_component_active) = ex_component_active.
Proof.
  destruct (unmanaged_in_managed_is_folded ex_component_active 0 2
              ex_component_store ex_unmanaged_store
              eq_refl eq_refl eq_refl (or_introl eq_refl) eq_refl)
    as (H1 & H2 & _).
  split; [reflexivity|]. split; [exact H1|].
  apply H2. repeat split; reflexivity.
Defined.

(** ** The invariant: the register heads a chain of tracking stores *)

Lemma scope_chain_ext (m m' : gmap nat EffectStore) c l :
  scope_chain m c l →
  (∀ k, k ∈ l → shape <$> m' !! k = shape <$> m !! k) →
  scope_chain m' c l.
Proof.
  induction 1 as [|n st l E Hr He Hn Hu Hch IH]; intros Hsame.
  - constructor.
  - pose proof (Hsame n ltac:(left)) as Hn'. rewrite E in Hn'.
    destruct (m' !! n) as [st'|] eqn:E'; [|done].
    simpl in Hn'. unfold shape in Hn'. injection Hn' as Hu' Hr' Hp' He'.
    apply (chain_push m' n st'); [done|congruence|congruence|done| |].
    + rewrite Hu', Hp'. done.
    + rewrite Hp'. apply IH. intros k Hk. apply Hsame. by right.
Qed.

Lemma scope_chain_tracking (m : gmap nat EffectStore) c l k :
  scope_chain m c l → k ∈ l →
  ∃ st, m !! k = Some st ∧ doRestore st = true.
Proof.
  induction 1 as [|n st l E Hr He Hn Hu Hch IH]; intros Hk.
  - by apply elem_of_nil in Hk.
  - apply elem_of_cons in Hk as [-> | Hk]; eauto.
Qed.

Lemma scope_chain_NoDup (m : gmap nat EffectStore) c l :
  scope_chain m c l → NoDup l.
Proof. induction 1; constructor; done. Qed.

Lemma scope_chain_head (m : gmap nat EffectStore) c l :
  scope_chain m c l → c = head l.
Proof. by destruct 1. Qed.

Lemma scope_chain_follow (m : gmap nat EffectStore) c l fuel :
  scope_chain m c l → (length l ≤ fuel)%nat → follow fuel m c = l.
Proof.
  intros H. revert fuel.
  induction H as [|n st l E Hr He Hn Hu Hch IH]; intros fuel Hlen.
  - by destruct fuel.
  - destruct fuel as [|fuel]; simpl in *; [lia|].
    rewrite E, IH by lia. done.
Qed.

Lemma NoDup_bounded_length (l : list nat) (k : nat) :
  NoDup l → (∀ x, x ∈ l → (x < k)%nat) → (length l ≤ k)%nat.
Proof.
  intros Hnd Hlt.
  assert (Hsub : l ⊆+ seq 0 k).
  { apply NoDup_submseteq; [done|]. intros x Hx.
    apply elem_of_seq. specialize (Hlt x Hx). lia. }
  apply submseteq_length in Hsub. by rewrite length_seq in Hsub.
Qed.

Lemma consistent_scopeStack s l : consistent s l → scopeStack s = l.
Proof.
  intros [Hch Hctx Hidle Halloc]. unfold scopeStack.
  apply scope_chain_follow; [done|].
  apply NoDup_bounded_length; [by eapply scope_chain_NoDup|].
  intros x Hx. apply Halloc.
  destruct (scope_chain_tracking _ _ _ x Hch Hx) as (st & E & _). by eexists.
Qed.

Lemma consistent_initial : consistent initial [].
Proof.
  split; simpl; [constructor|done| |]; intros n; by rewrite lookup_empty.
Qed.

(** A store on the chain is tracking, so a store that is not tracking is off
    the chain. *)
Lemma consistent_idle_off_chain s l n st :
  consistent s l → stores s !! n = Some st → idle st → n ∉ l.
Proof.
  intros [Hch _ _ _] E (Hr & _) Hn.
  destruct (scope_chain_tracking _ _ _ n Hch Hn) as (st' & E' & Hr').
  congruence.
Qed.

(** Steps that keep the register, the context and the shape of every
    store keep the invariant. *)
Lemma consistent_same_shape s s' l :
  consistent s l →
  currentStore s' = currentStore s →
  evalContext s' = evalContext s →
  nextStore s' = nextStore s →
  (∀ k, shape <$> stores s' !! k = shape <$> stores s !! k) →
  consistent s' l.
Proof.
  intros [Hch Hctx Hidle Halloc] Hc He Hn Hsh. split.
  - rewrite Hc. eapply scope_chain_ext; [done|]. intros k _. apply Hsh.
  - congruence.
  - intros n st' E' Hnl. specialize (Hsh n). rewrite E' in Hsh.
    destruct (stores s !! n) as [st|] eqn:E; [|done].
    simpl in Hsh. unfold shape in Hsh. injection Hsh as Hu Hr Hp Hee.
    destruct (Hidle n st E Hnl) as (? & ? & ?).
    unfold idle. repeat split; congruence.
  - intros n [st' E']. rewrite Hn. apply Halloc.
    specialize (Hsh n). rewrite E' in Hsh.
    destruct (stores s !! n); [by eexists|done].
Qed.

Lemma shape_alter_host g n (m : gmap nat EffectStore) k :
  (∀ st, shape (g st) = shape st) →
  shape <$> alter g n m !! k = shape <$> m !! k.
Proof.
  intros Hg. rewrite lookup_alter. case_decide; [subst|done].
  destruct (m !! k); simpl; by rewrite ?Hg.
Qed.

Lemma consistent_subscribe s l n cb :
  consistent s l → consistent (subscribe n cb s) l.
Proof.
  intros H. eapply consistent_same_shape; try done.
  intros k. unfold subscribe. simpl. by apply shape_alter_host.
Qed.

Lemma consistent_unsubscribe s l n :
  consistent s l → consistent (unsubscribe n s) l.
Proof.
  intros H. unfold unsubscribe. destruct (stores s !! n) as [st|]; [|done].
  eapply consistent_same_shape; try done.
  intros k. simpl. by rewrite !shape_alter_host.
Qed.

Lemma consistent__callback s l n :
  consistent s l → consistent (_callback n s) l.
Proof.
  intros H. unfold _callback. destruct (stores s !! n) as [st|]; [|done].
  eapply consistent_same_shape; try done;
    try by destruct (onChangeNotifyReact st).
  intros k. destruct (onChangeNotifyReact st); simpl;
    by rewrite shape_alter_host.
Qed.

Lemma consistent_ensureFinalCleanup s l :
  consistent s l → consistent (ensureFinalCleanup s) l.
Proof.
  intros H. unfold ensureFinalCleanup. destruct (finalCleanup s); [done|].
  by eapply consistent_same_shape.
Qed.

Lemma consistent_createEffectStore s l usage :
  consistent s l → consistent (snd (createEffectStore usage s)) l.
Proof.
  intros [Hch Hctx Hidle Halloc].
  assert (Hfresh : stores s !! nextStore s = None).
  { destruct (stores s !! nextStore s) eqn:E; [|done].
    specialize (Halloc (nextStore s) ltac:(by eexists)). lia. }
  split; simpl.
  - eapply scope_chain_ext; [done|]. intros k Hk.
    destruct (scope_chain_tracking _ _ _ k Hch Hk) as (st & E & _).
    rewrite lookup_insert_ne; [done|]. congruence.
  - done.
  - intros n st E Hn.
    destruct (decide (nextStore s = n)) as [<-|Hne].
    + rewrite lookup_insert_eq in E. injection E as <-. by repeat split.
    + rewrite lookup_insert_ne in E by done. by eapply Hidle.
  - intros n. destruct (decide (nextStore s = n)) as [<-|Hne]; [lia|].
    rewrite lookup_insert_ne by done. intros H.
    specialize (Halloc n H). lia.
Qed.

(** [f()] on the store in the register pops the chain. *)
Lemma consistent_f_top s n l :
  consistent s (n :: l) → consistent (f n s) l.
Proof.
  intros [Hch Hctx Hidle Halloc].
  inversion Hch as [|n' st l' E Hr He Hn Hu Hch' Hc]; subst.
  split.
  - rewrite (currentStore_f _ _ _ E), Hr, stores_f.
    eapply scope_chain_ext; [done|]. intros k Hk.
    rewrite lookup_alter_ne; [done|]. by intros ->.
  - rewrite (currentStore_f _ _ _ E), (evalContext_f _ _ _ E), Hr, He. done.
  - intros k st' E' Hk. rewrite lookup_f in E'.
    case_decide as Hkn.
    + subst k. rewrite E in E'. injection E' as <-. by repeat split.
    + eapply Hidle; [done|]. by intros [?|?]%elem_of_cons.
  - intros k Hk. rewrite nextStore_f. apply Halloc.
    rewrite stores_f in Hk. by apply lookup_alter_is_Some in Hk.
Qed.

(** The tracking branches of [_start] push the started store. *)
Lemma consistent_begin_tracking s n l this :
  consistent s l →
  stores s !! n = Some this →
  idle this →
  (_usage this = UNMANAGED → currentStore s = None) →
  consistent (begin_tracking n (currentStore s) s) (n :: l).
Proof.
  intros Hcons E Hi Hu.
  pose proof (consistent_idle_off_chain s l n this Hcons E Hi) as Hn.
  destruct Hcons as [Hch Hctx Hidle Halloc].
  split.
  - simpl.
    apply (chain_push _ n (with_tracking true (currentStore s)
                             (Some (mkEndEffect n (evalContext s))) this));
      simpl.
    + rewrite lookup_alter_eq, E. done.
    + done.
    + by rewrite Hctx.
    + done.
    + done.
    + eapply scope_chain_ext; [done|]. intros k Hk.
      rewrite lookup_alter_ne; [done|]. by intros ->.
  - done.
  - intros k st' E' Hk. rewrite lookup_begin_tracking in E'.
    case_decide as Hkn.
    + subst k. exfalso. apply Hk. by left.
    + eapply Hidle; [done|]. intros ?. apply Hk. by right.
  - intros k Hk. simpl in *. apply Halloc.
    by apply lookup_alter_is_Some in Hk.
Qed.

Lemma startable_cases s n this :
  stores s !! n = Some this →
  startable n s = true →
  idle this ∨ (currentStore s = Some n ∧ _usage this = UNMANAGED).
Proof.
  intros E. unfold startable, is_idle, usage_of. rewrite E. simpl.
  intros [Hi | [Hc Hu]%andb_true_iff]%orb_true_iff.
  - left. by apply idle_idleb.
  - right. apply bool_decide_eq_true in Hc, Hu. split; congruence.
Qed.

(** [_start()] moves the chain as the transition table says. *)
Lemma consistent__start s l n this :
  consistent s l →
  stores s !! n = Some this →
  startable n s = true →
  consistent (_start n s)
    (table_start (current_usage s) (_usage this) n l).
Proof.
  intros Hcons E Hst.
  pose proof (startable_cases s n this E Hst) as Hcases.
  unfold current_usage, usage_of.
  destruct (currentStore s) as [c|] eqn:Hc.
  - pose proof (cons_chain _ _ Hcons) as Hch. rewrite Hc in Hch.
    inversion Hch as [|c' cur l' Ec Hr He Hn Hu Hch' Hcl]; subst.
    rewrite Ec. simpl.
    destruct (_usage cur) eqn:Ucur, (_usage this) eqn:Uthis; simpl.
    1,2: (* finish the unmanaged store, then begin *)
      rewrite (_start_sibling s c n cur this) by (rewrite ?Uthis; auto);
      rewrite (Hu eq_refl) in Hch'; inversion Hch'; subst;
      pose proof (consistent_f_top s c [] Hcons) as Hf;
      assert (Hcf : currentStore (f c s) = None)
        by (by rewrite (currentStore_f _ _ _ Ec), Hr, (Hu eq_refl));
      rewrite <- Hcf;
      destruct (decide (c = n)) as [->|Hne];
      [ apply (consistent_begin_tracking _ _ _
                 (with_tracking false None None cur));
        [done|by apply f_makes_idle|by repeat split|done]
      | apply (consistent_begin_tracking _ _ _ this);
        [done|by rewrite lookup_f, decide_False| |done];
        destruct Hcases as [?|[? _]]; [done|congruence] ].
    2,5: (* folded into the managed store *)
      rewrite (_start_folded s c n cur this) by (rewrite ?Ucur; auto); done.
    all: (* capture and restore *)
      rewrite (_start_capture s c n cur this)
        by (rewrite ?Ucur, ?Uthis; done);
      rewrite <- Hc;
      apply (consistent_begin_tracking _ _ _ this);
        [done|done| |congruence];
      destruct Hcases as [?|[Hcn ?]]; [done|];
      assert (c = n) by congruence; subst; congruence.
  - pose proof (cons_chain _ _ Hcons) as Hch. rewrite Hc in Hch.
    inversion Hch; subst. simpl.
    rewrite (_start_first s n this) by done. rewrite <- Hc.
    apply (consistent_begin_tracking _ _ _ this); [done|done| |done].
    destruct Hcases as [?|[? _]]; [done|congruence].
Qed.

Lemma is_idle_f n s : is_idle n s = true → f n s = s.
Proof.
  unfold is_idle. destruct (stores s !! n) as [st|] eqn:E.
  - intros Hi. apply (f_idle n s st E). by apply idle_idleb.
  - intros _. unfold f. by rewrite E.
Qed.

(** [f()] pops the chain when called on the store in the register, and does
    nothing on a store that is not tracking. *)
Lemma consistent_f s l n :
  consistent s l →
  finishable n s = true →
  consistent (f n s) (if decide (currentStore s = Some n) then tail l else l).
Proof.
  intros Hcons Hfin. case_decide as Hc.
  - pose proof (cons_chain _ _ Hcons) as Hch. rewrite Hc in Hch.
    inversion Hch; subst. simpl. by apply consistent_f_top.
  - unfold finishable in Hfin. apply orb_true_iff in Hfin as [Hi|Hc'].
    + by rewrite is_idle_f.
    + by apply bool_decide_eq_true in Hc'.
Qed.

Lemma consistent_step_microtask s l :
  consistent s l → ∃ l', consistent (step_microtask s) l'.
Proof.
  intros Hcons. unfold step_microtask.
  destruct (microtasks s) as [|[] q]; [by eexists|]. simpl.
  assert (Hcons' : consistent (set_finalCleanup false (set_microtasks q s)) l)
    by (by eapply consistent_same_shape).
  destruct (currentStore s) as [c|] eqn:Hc; [|by eexists].
  pose proof (cons_chain _ _ Hcons) as Hch. rewrite Hc in Hch.
  inversion Hch; subst. eexists. by apply consistent_f_top.
Qed.

Lemma consistent_drain_fuel k s l :
  consistent s l → ∃ l', consistent (drain_fuel k s) l'.
Proof.
  revert s l. induction k as [|k IH]; intros s l Hcons; [by eexists|].
  simpl. destruct (consistent_step_microtask s l Hcons) as [l' Hcons'].
  by eapply IH.
Qed.

Lemma startable_ensureFinalCleanup n s :
  startable n (ensureFinalCleanup s) = startable n s.
Proof.
  unfold startable, is_idle, usage_of.
  by rewrite stores_ensureFinalCleanup, currentStore_ensureFinalCleanup.
Qed.

Lemma consistent_step o s l :
  consistent s l →
  permitted_op s o = true →
  ∃ l', consistent (step o s) l'.
Proof.
  intros Hcons Hp.
  destruct o as [u|n|n|n|r u|n cb|n|n|n|]; simpl in *.
  - eexists. by apply consistent_createEffectStore.
  - destruct (stores s !! n) as [this|] eqn:E.
    + eexists. by eapply consistent__start.
    + exists l. unfold _start. by rewrite E.
  - eexists. by apply consistent_f.
  - eexists. by apply consistent_f.
  - unfold useSignals. destruct r as [n|]; simpl.
    + pose proof (consistent_ensureFinalCleanup s l Hcons) as Hcons'.
      destruct (stores (ensureFinalCleanup s) !! n) as [this|] eqn:E.
      * eexists. eapply consistent__start; [done|done|].
        by rewrite startable_ensureFinalCleanup.
      * exists l. unfold _start. by rewrite E.
    + pose proof (consistent_createEffectStore _ l u
                    (consistent_ensureFinalCleanup s l Hcons)) as Hcons'.
      eexists. eapply consistent__start; [done| |].
      * simpl. apply lookup_insert_eq.
      * unfold startable, is_idle. simpl. by rewrite lookup_insert_eq.
  - eexists. by apply consistent_subscribe.
  - eexists. by apply consistent_unsubscribe.
  - eexists. by apply consistent__callback.
  - by eexists.
  - by apply (consistent_drain_fuel _ s l).
Qed.

Lemma consistent_run ops s l :
  consistent s l →
  permitted s ops = true →
  ∃ l', consistent (run ops s) l'.
Proof.
  revert s l. induction ops as [|o ops IH]; intros s l Hcons Hp.
  - by eexists.
  - simpl in *. apply andb_true_iff in Hp as [Ho Hp].
    destruct (consistent_step o s l Hcons Ho) as [l' Hcons'].
    by eapply IH.
Qed.

Lemma reachable_consistent ops :
  permitted initial ops = true →
  ∃ l, consistent (run ops initial) l.
Proof. apply (consistent_run ops initial []), consistent_initial. Qed.

(** C1: along every sequence of calls that pairs [_start()] and [f()], a read
    of a Reactive Source is recorded by the effect of exactly the store that
    the register [currentStore] holds at that moment and by no other, and
    that store is the innermost scope of the stack of saved stores, in which
    no store occurs twice; [_start()] moves that stack as the
    transition table says and [f()] of the store in the register pops it, so
    the nesting is last-in-first-out. *)
Theorem reads_attributed_to_register ops :
  permitted initial ops = true →
  let s := run ops initial in
  attributed_to s = currentStore s
  ∧ (∀ m, currentStore s ≠ Some m → attributed_to s ≠ Some m)
  ∧ currentStore s = head (scopeStack s)
  ∧ NoDup (scopeStack s)
  ∧ (∀ n this, stores s !! n = Some this → startable n s = true →
       scopeStack (_start n s)
       = table_start (current_usage s) (_usage this) n (scopeStack s)
       ∧ attributed_to (_start n s) = head (scopeStack (_start n s)))
  ∧ (∀ n, currentStore s = Some n →
       scopeStack (f n s) = tail (scopeStack s)
       ∧ attributed_to (f n s) = head (tail (scopeStack s)))
  ∧ (∀ n, is_idle n s = true → f n s = s).
Proof.
  intros Hp s.
  destruct (reachable_consistent ops Hp) as [l Hcons]. fold s in Hcons.
  rewrite (consistent_scopeStack s l Hcons).
  split; [apply (cons_context _ _ Hcons)|].
  split.
  { intros m Hm. unfold attributed_to. by rewrite (cons_context _ _ Hcons). }
  split; [apply (scope_chain_head _ _ _ (cons_chain _ _ Hcons))|].
  split; [apply (scope_chain_NoDup _ _ _ (cons_chain _ _ Hcons))|].
  split; [|split].
  - intros n this E Hst.
    pose proof (consistent__start s l n this Hcons E Hst) as Hcons'.
    rewrite (consistent_scopeStack _ _ Hcons'). split; [done|].
    unfold attributed_to. rewrite (cons_context _ _ Hcons').
    apply (scope_chain_head _ _ _ (cons_chain _ _ Hcons')).
  - intros n Hc.
    assert (Hfin : finishable n s = true).
    { unfold finishable. rewrite Hc, bool_decide_eq_true_2 by done.
      apply orb_true_r. }
    pose proof (consistent_f s l n Hcons Hfin) as Hcons'.
    rewrite decide_True in Hcons' by done.
    rewrite (consistent_scopeStack _ _ Hcons'). split; [done|].
    unfold attributed_to. rewrite (cons_context _ _ Hcons').
    apply (scope_chain_head _ _ _ (cons_chain _ _ Hcons')).
  - intros n. apply is_idle_f.
Qed.

Lemma reads_attributed_to_register_witness :
  permitted initial ex_render = true
  ∧ attributed_to (run ex_render initial) = currentStore (run ex_render initial)
  ∧ currentStore (run ex_render initial) = Some 0%nat.
Proof.
  split; [reflexivity|].
  split; [|reflexivity].
  exact (proj1 (reads_attributed_to_register ex_render eq_refl)).
Defined.

(** C3: when [_start()] of an unmanaged or managed component store [n] runs
    while an unmanaged store [c] is in the register, [c] is finished first
    and only then does [n] begin tracking, [n] saves no previous store, and
    in between the register is empty: the two are never active together. *)
Theorem sibling_start_finishes_previous s c n cur this :
  currentStore s = Some c →
  stores s !! c = Some cur →
  stores s !! n = Some this →
  _usage cur = UNMANAGED →
  _usage this = UNMANAGED ∨ _usage this = MANAGED_COMPONENT →
  _start n s = begin_tracking n None (f c s)
  ∧ trace (f c s) = trace s ++ match endEffect cur with
                               | Some cl => [EffectEnd (ee_effect cl)]
                               | None => []
                               end
  ∧ trace (_start n s) = trace (f c s) ++ [EffectStart n]
  ∧ currentStore (_start n s) = Some n
  ∧ saved_previous n (_start n s) = Some None
  ∧ (c ≠ n → is_idle c (_start n s) = true)
  ∧ (∀ ops, permitted initial ops = true → s = run ops initial →
       currentStore (f c s) = None
       ∧ attributed_to (f c s) = None
       ∧ is_idle c (f c s) = true
       ∧ trace (_start n s) = trace s ++ [EffectEnd c; EffectStart n]
       ∧ scopeStack (_start n s) = [n]
       ∧ attributed_to (_start n s) = Some n).
Proof.
  intros Hc Ec En Hu Ht.
  pose proof (_start_sibling s c n cur this Hc Ec En Hu Ht) as Hs.
  rewrite Hs.
  split; [done|]. split; [by apply trace_f|]. split; [done|].
  split; [done|]. split; [|split].
  - unfold saved_previous. rewrite lookup_begin_tracking, decide_True by done.
    rewrite lookup_f. case_decide; by rewrite ?Ec, ?En.
  - intros Hne. unfold is_idle.
    rewrite lookup_begin_tracking, decide_False by done.
    by rewrite (f_makes_idle _ _ _ Ec).
  - intros ops Hp ->.
    destruct (reachable_consistent ops Hp) as [l Hcons].
    pose proof (cons_chain _ _ Hcons) as Hch. rewrite Hc in Hch.
    inversion Hch as [|c' cur' l' Ec' Hr He Hn Hu' Hch' Hcl]; subst.
    rewrite Ec in Ec'. injection Ec' as <-.
    rewrite (Hu' Hu) in He, Hch'. inversion Hch'; subst.
    split; [by rewrite (currentStore_f _ _ _ Ec), Hr, (Hu' Hu)|].
    split; [unfold attributed_to; by rewrite (evalContext_f _ _ _ Ec), He|].
    split; [unfold is_idle; by rewrite (f_makes_idle _ _ _ Ec)|].
    split.
    { simpl. rewrite (trace_f _ _ _ Ec), He. simpl.
      by rewrite <- app_assoc. }
    split; [|done].
    assert (Hst : startable n (run ops initial) = true).
    { unfold startable, is_idle, usage_of. rewrite En. simpl.
      destruct (decide (c = n)) as [<-|Hne].
      - rewrite Hc, Ec in *. injection En as <-. simpl.
        rewrite Hu, !bool_decide_eq_true_2 by done. apply orb_true_r.
      - assert (Hi : idle this).
        { eapply (cons_idle _ _ Hcons); [done|].
          intros ->%list_elem_of_singleton. done. }
        apply idle_idleb in Hi. by rewrite Hi. }
    pose proof (consistent__start _ _ n this Hcons En Hst) as Hcons'.
    rewrite Hs in Hcons'. rewrite (consistent_scopeStack _ _ Hcons').
    unfold current_usage, usage_of. rewrite Hc, Ec. simpl. rewrite Hu.
    by destruct Ht as [-> | ->].
Qed.

Lemma sibling_start_finishes_previous_witness :
  currentStore (run ex_bare initial) = Some 1%nat
  ∧ _start 0 (run ex_bare initial)
    = begin_tracking 0 None (f 1 (run ex_bare initial))
  ∧ saved_previous 0 (_start 0 (run ex_bare initial)) = Some None
  ∧ currentStore (f 1 (run ex_bare initial)) = None
  ∧ scopeStack (_start 0 (run ex_bare initial)) = [0%nat].
Proof.
  destruct (sibling_start_finishes_previous (run ex_bare initial) 1 0
              ex_bare_store
              (with_onChange (Some 7%nat) ex_unmanaged_store)
              eq_refl eq_refl eq_refl eq_refl (or_introl eq_refl))
    as (H1 & _ & _ & _ & H2 & _ & H3).
  destruct (H3 ex_bare eq_refl eq_refl) as (H4 & _ & _ & _ & H5 & _).
  split; [reflexivity|]. split; [exact H1|]. split; [exact H2|].
  split; [exact H4 | exact H5].
Defined.

(** ** The deferred cleanup *)

Lemma reaper_part_f n s : reaper_part (f n s) = reaper_part s.
Proof.
  unfold f. destruct (stores s !! n) as [st|]; [|done].
  by destruct (endEffect st), (doRestore st).
Qed.

Lemma reaper_part__start n s : reaper_part (_start n s) = reaper_part s.
Proof.
  unfold _start.
  destruct (stores s !! n) as [this|]; [|done].
  destruct (currentStore s) as [c|]; [|done].
  destruct (stores s !! c) as [cur|]; [|done].
  destruct (_usage cur), (_usage this); try done;
    by rewrite <- (reaper_part_f c s).
Qed.

Lemma reaper_part_useSignals r u s :
  reaper_part (snd (useSignals r u s)) = reaper_part (ensureFinalCleanup s).
Proof.
  unfold useSignals. destruct r as [n|]; simpl;
    by rewrite reaper_part__start.
Qed.

Lemma reaper_part_ensureFinalCleanup s :
  reaper_consistent s →
  reaper_part (ensureFinalCleanup s) = (true, [FinalCleanupTask]).
Proof.
  unfold reaper_consistent, reaper_part, ensureFinalCleanup.
  destruct (finalCleanup s) eqn:E; intros Hq; simpl; rewrite ?E, Hq; done.
Qed.

(** With the callback queued, draining the queue runs it once: it clears
    [finalCleanup], then finishes the store in the register, if any. *)
Lemma drainMicrotasks_armed s :
  reaper_consistent s →
  finalCleanup s = true →
  drainMicrotasks s
  = match currentStore s with
    | Some c => f c (set_finalCleanup false (set_microtasks [] s))
    | None => set_finalCleanup false (set_microtasks [] s)
    end.
Proof.
  unfold reaper_consistent, drainMicrotasks. intros Hq Hf.
  rewrite Hf in Hq. rewrite Hq. simpl. unfold step_microtask.
  by rewrite Hq.
Qed.

Lemma drainMicrotasks_disarmed s :
  reaper_consistent s → finalCleanup s = false → drainMicrotasks s = s.
Proof.
  unfold reaper_consistent, drainMicrotasks. intros Hq Hf.
  rewrite Hf in Hq. by rewrite Hq.
Qed.

Lemma reaper_part_drainMicrotasks s :
  reaper_consistent s → reaper_part (drainMicrotasks s) = (false, []).
Proof.
  intros Hq. destruct (finalCleanup s) eqn:Hf.
  - rewrite drainMicrotasks_armed by done.
    destruct (currentStore s); by rewrite ?reaper_part_f.
  - rewrite drainMicrotasks_disarmed by done.
    unfold reaper_consistent in Hq. rewrite Hf in Hq.
    unfold reaper_part. by rewrite Hf, Hq.
Qed.

Lemma reaper_consistent_part s s' :
  reaper_part s' = reaper_part s → reaper_consistent s → reaper_consistent s'.
Proof.
  unfold reaper_part, reaper_consistent. intros H. by injection H as -> ->.
Qed.

Lemma reaper_part_step o s :
  reaper_consistent s →
  reaper_part (step o s)
  = match o with
    | OpUseSignals _ _ => (true, [FinalCleanupTask])
    | OpDrain => (false, [])
    | _ => reaper_part s
    end.
Proof.
  intros Hq. destruct o as [u|n|n|n|r u|n cb|n|n|n|]; simpl.
  - done.
  - apply reaper_part__start.
  - apply reaper_part_f.
  - apply reaper_part_f.
  - by rewrite reaper_part_useSignals, reaper_part_ensureFinalCleanup.
  - done.
  - unfold unsubscribe. by destruct (stores s !! n).
  - unfold _callback. destruct (stores s !! n) as [st|]; [|done].
    by destruct (onChangeNotifyReact st).
  - done.
  - by apply reaper_part_drainMicrotasks.
Qed.

Lemma reaper_consistent_step o s :
  reaper_consistent s → reaper_consistent (step o s).
Proof.
  intros Hq. pose proof (reaper_part_step o s Hq) as H.
  destruct o; try (by eapply reaper_consistent_part);
    unfold reaper_part in H; unfold reaper_consistent;
    simpl in H |- *; by injection H as -> ->.
Qed.

Lemma reaper_consistent_run ops s :
  reaper_consistent s → reaper_consistent (run ops s).
Proof.
  revert s. induction ops as [|o ops IH]; intros s Hq; [done|].
  simpl. by apply IH, reaper_consistent_step.
Qed.

(** The cleanup callback empties a register that holds an unmanaged store. *)
Lemma reaper_sweeps_unmanaged s l c :
  consistent s l →
  reaper_consistent s →
  finalCleanup s = true →
  currentStore s = Some c →
  usage_of c s = Some UNMANAGED →
  currentStore (drainMicrotasks s) = None
  ∧ attributed_to (drainMicrotasks s) = None.
Proof.
  intros Hcons Hq Hf Hc Hu.
  rewrite drainMicrotasks_armed, Hc by done.
  pose proof (cons_chain _ _ Hcons) as Hch. rewrite Hc in Hch.
  inversion Hch as [|c' cur l' Ec Hr He Hn Hu' Hch' Hcl]; subst.
  unfold usage_of in Hu. rewrite Ec in Hu. injection Hu as Hu.
  set (s' := set_finalCleanup false (set_microtasks [] s)).
  assert (Ec' : stores s' !! c = Some cur) by done.
  unfold attributed_to.
  rewrite (currentStore_f _ _ _ Ec'), (evalContext_f _ _ _ Ec'), Hr, He.
  simpl. by rewrite (Hu' Hu).
Qed.

(** C5, as the specification states it, fails: a [useSignals] call of a
    managed component arms the cleanup microtask. *)
Lemma managed_start_arms_cleanup : ¬ armed_only_by_unmanaged_start.
Proof.
  intros H.
  destruct (H initial (OpUseSignals None MANAGED_COMPONENT) eq_refl eq_refl)
    as (r & u & Ho & Hu).
  injection Ho as <- <-. vm_compute in Hu. discriminate Hu.
Qed.

(** C5, amended: every [useSignals] call, of any usage, leaves the cleanup
    microtask armed, queueing it when it was not; no other call arms it, so
    at most one is pending.  When the queue drains the callback disarms
    itself and finishes the store in the register; an unmanaged store
    acquired while the register was empty, and never finished, leaves the
    register empty once the queue has drained. *)
Theorem cleanup_armed_by_useSignals ops :
  permitted initial ops = true →
  let s := run ops initial in
  (length (microtasks s) ≤ 1)%nat
  ∧ (finalCleanup s = true ↔ microtasks s = [FinalCleanupTask])
  ∧ (∀ r u, finalCleanup (snd (useSignals r u s)) = true
            ∧ microtasks (snd (useSignals r u s)) = [FinalCleanupTask])
  ∧ (∀ o, finalCleanup s = false → finalCleanup (step o s) = true →
          ∃ r u, o = OpUseSignals r u)
  ∧ (finalCleanup s = true →
     drainMicrotasks s
     = match currentStore s with
       | Some c => f c (set_finalCleanup false (set_microtasks [] s))
       | None => set_finalCleanup false (set_microtasks [] s)
       end)
  ∧ finalCleanup (drainMicrotasks s) = false
  ∧ microtasks (drainMicrotasks s) = []
  ∧ (∀ c, currentStore s = Some c → usage_of c s = Some UNMANAGED →
          finalCleanup s = true →
          currentStore (drainMicrotasks s) = None
          ∧ attributed_to (drainMicrotasks s) = None)
  ∧ (currentStore s = None →
     let n := fst (useSignals None UNMANAGED s) in
     let s1 := snd (useSignals None UNMANAGED s) in
     currentStore s1 = Some n
     ∧ currentStore (drainMicrotasks s1) = None
     ∧ attributed_to (drainMicrotasks s1) = None).
Proof.
  intros Hp s.
  destruct (reachable_consistent ops Hp) as [l Hcons]. fold s in Hcons.
  assert (Hq : reaper_consistent s)
    by (by apply reaper_consistent_run).
  split; [|split].
  { unfold reaper_consistent in Hq. rewrite Hq.
    destruct (finalCleanup s); simpl; lia. }
  { unfold reaper_consistent in Hq. rewrite Hq.
    by destruct (finalCleanup s). }
  split.
  { intros r u.
    pose proof (reaper_part_step (OpUseSignals r u) s Hq) as H.
    unfold reaper_part in H. simpl in H. by injection H as -> ->. }
  split.
  { intros o Hf Hf'.
    pose proof (reaper_part_step o s Hq) as H.
    unfold reaper_part in H.
    destruct o; try (by eauto);
      apply (f_equal fst) in H; simpl in *; congruence. }
  split; [by apply drainMicrotasks_armed|].
  pose proof (reaper_part_drainMicrotasks s Hq) as Hd.
  unfold reaper_part in Hd. injection Hd as -> ->.
  split; [done|]. split; [done|]. split.
  { intros c Hc Hu Hf. by apply (reaper_sweeps_unmanaged s l c). }
  intros Hc n s1.
  assert (Hp1 : permitted initial (ops ++ [OpUseSignals None UNMANAGED])
                = true).
  { clear -Hp. revert Hp. generalize initial.
    induction ops as [|o ops IH]; intros s0 Hp; simpl in *; [done|].
    apply andb_true_iff in Hp as [Ho Hp]. rewrite Ho. by apply IH. }
  destruct (reachable_consistent _ Hp1) as [l1 Hcons1].
  rewrite run_app in Hcons1. simpl in Hcons1. fold s in Hcons1. fold s1 in Hcons1.
  assert (Hq1 : reaper_consistent s1)
    by (by apply (reaper_consistent_step (OpUseSignals None UNMANAGED) s)).
  assert (Hn : n = nextStore s).
  { subst n. unfold useSignals. simpl.
    by rewrite nextStore_ensureFinalCleanup. }
  set (s0 := snd (createEffectStore UNMANAGED (ensureFinalCleanup s))).
  set (st0 := {| _usage := UNMANAGED; version := 0;
                 onChangeNotifyReact := None; doRestore := false;
                 prevStore := None; endEffect := None |}).
  assert (E0 : stores s0 !! n = Some st0).
  { rewrite Hn. subst s0. simpl.
    by rewrite nextStore_ensureFinalCleanup, lookup_insert_eq. }
  assert (Hs1 : s1 = begin_tracking n None s0).
  { subst s1. change (_start n s0 = begin_tracking n None s0).
    apply (_start_first s0 n st0); [|done].
    subst s0. simpl. by rewrite currentStore_ensureFinalCleanup. }
  assert (Hc1 : currentStore s1 = Some n) by (by rewrite Hs1).
  split; [done|].
  apply (reaper_sweeps_unmanaged s1 l1 n); try done.
  - pose proof (reaper_part_step (OpUseSignals None UNMANAGED) s Hq) as H.
    exact (f_equal fst H).
  - unfold usage_of. rewrite Hs1, lookup_begin_tracking, decide_True by done.
    by rewrite E0.
Qed.

Lemma cleanup_armed_by_useSignals_witness :
  permitted initial ex_bare = true
  ∧ finalCleanup (snd (useSignals None MANAGED_HOOK (run ex_bare initial)))
    = true
  ∧ currentStore (run ex_bare initial) = Some 1%nat
  ∧ currentStore (drainMicrotasks (run ex_bare initial)) = None.
Proof.
  destruct (cleanup_armed_by_useSignals ex_bare eq_refl)
    as (_ & _ & H1 & _ & _ & _ & _ & H2 & _).
  split; [reflexivity|].
  split; [exact (proj1 (H1 None MANAGED_HOOK))|].
  split; [reflexivity|].
  exact (proj1 (H2 1%nat eq_refl eq_refl eq_refl)).
Defined.

(** * Further properties of the runtime *)

(** ** Versions, usages and allocation along arbitrary call sequences *)

Lemma to_int32_add_l a b : to_int32 (to_int32 a + b) = to_int32 (a + b).
Proof.
  rewrite (to_int32_shifted (to_int32 a + b)), (to_int32_shifted (a + b)).
  rewrite (to_int32_shifted a).
  replace ((a + 2 ^ 31) mod 2 ^ 32 - 2 ^ 31 + b + 2 ^ 31)
    with ((a + 2 ^ 31) mod 2 ^ 32 + b) by ring.
  rewrite Zplus_mod_idemp_l. do 2 f_equal. ring.
Qed.

Lemma host_part_step_other o s k :
  writes_host k o = false →
  (k < nextStore s)%nat →
  host_part <$> stores (step o s) !! k = host_part <$> stores s !! k.
Proof.
  intros Hw Hk.
  destruct o as [u|m|m|m|r u|m cb|m|m|m|]; simpl in *.
  - by rewrite lookup_insert_ne by lia.
  - apply host_part__start.
  - apply host_part_f.
  - apply host_part_f.
  - unfold useSignals. destruct r as [m|]; simpl.
    + by rewrite host_part__start, stores_ensureFinalCleanup.
    + rewrite host_part__start. simpl.
      rewrite nextStore_ensureFinalCleanup, lookup_insert_ne by lia.
      by rewrite stores_ensureFinalCleanup.
  - apply bool_decide_eq_false in Hw. unfold subscribe. simpl.
    by rewrite lookup_alter_ne.
  - apply bool_decide_eq_false in Hw. unfold unsubscribe.
    destruct (stores s !! m); [|done]. simpl. by rewrite !lookup_alter_ne.
  - apply bool_decide_eq_false in Hw. unfold _callback.
    destruct (stores s !! m) as [st|]; [|done].
    destruct (onChangeNotifyReact st); simpl; by rewrite lookup_alter_ne.
  - done.
  - apply host_part_drain_fuel.
Qed.

Lemma nextStore_step o s : (nextStore s ≤ nextStore (step o s))%nat.
Proof.
  destruct o as [u|m|m|m|r u|m cb|m|m|m|]; simpl;
    rewrite ?nextStore__start, ?nextStore_f; try lia.
  - unfold useSignals. destruct r as [m|]; simpl;
      rewrite nextStore__start; simpl;
      rewrite ?nextStore_ensureFinalCleanup; lia.
  - unfold unsubscribe. by destruct (stores s !! m).
  - unfold _callback. destruct (stores s !! m) as [st|]; [|done].
    by destruct (onChangeNotifyReact st).
  - unfold drainMicrotasks. by rewrite nextStore_drain_fuel.
Qed.

(** What one call can do to the usage and the version of a store: keep
    both, add one to the version, or allocate the store. *)
Lemma step_store o s k st' :
  stores (step o s) !! k = Some st' →
  (∃ st, stores s !! k = Some st
         ∧ _usage st' = _usage st
         ∧ (version st' = version st
            ∨ version st' = to_int32 (version st + 1)))
  ∨ (k = nextStore s ∧ version st' = 0
     ∧ (nextStore s < nextStore (step o s))%nat).
Proof.
  intros E'.
  assert (Hhost : ∀ s0 : Runtime,
    host_part <$> stores (step o s) !! k = host_part <$> stores s0 !! k →
    ∃ st, stores s0 !! k = Some st ∧ _usage st' = _usage st
          ∧ version st' = version st).
  { intros s0 H. rewrite E' in H.
    destruct (stores s0 !! k) as [st|]; [|done].
    exists st. unfold host_part in H. simpl in H. by simplify_eq. }
  assert (Halter : ∀ g m,
    stores (step o s) = alter g m (stores s) →
    (∀ st, _usage (g st) = _usage st
           ∧ (version (g st) = version st
              ∨ version (g st) = to_int32 (version st + 1))) →
    ∃ st, stores s !! k = Some st ∧ _usage st' = _usage st
          ∧ (version st' = version st
             ∨ version st' = to_int32 (version st + 1))).
  { intros g m Hs Hg. rewrite Hs in E'.
    apply lookup_alter_Some in E' as [(-> & st & E & ->)|[_ E]].
    - exists st. split; [done|]. apply Hg.
    - exists st'. eauto. }
  destruct o as [u|m|m|m|r u|m cb|m|m|m|]; simpl in *.
  - apply lookup_insert_Some in E' as [[<- <-]|[Hne E]].
    + right. simpl. split; [done|]. split; [done|lia].
    + left. exists st'. eauto.
  - left. destruct (Hhost s (host_part__start _ _ _)) as (st & ? & ? & ?).
    eauto.
  - left. destruct (Hhost s (host_part_f _ _ _)) as (st & ? & ? & ?). eauto.
  - left. destruct (Hhost s (host_part_f _ _ _)) as (st & ? & ? & ?). eauto.
  - unfold useSignals in *. destruct r as [m|]; simpl in *.
    + left.
      destruct (Hhost (ensureFinalCleanup s) (host_part__start _ _ _))
        as (st & E & ? & ?).
      rewrite stores_ensureFinalCleanup in E. eauto.
    + destruct (Hhost _ (host_part__start _ _ _)) as (st & E & Hu & Hv).
      simpl in E. rewrite nextStore_ensureFinalCleanup in E.
      rewrite stores_ensureFinalCleanup in E.
      rewrite nextStore__start. simpl. rewrite nextStore_ensureFinalCleanup.
      apply lookup_insert_Some in E as [[<- <-]|[Hne E]].
      * right. simpl in Hv. split; [done|]. split; [done|lia].
      * left. exists st. eauto.
  - left. apply (Halter (with_onChange (Some cb)) m); [done|]. eauto.
  - left. unfold unsubscribe in *.
    destruct (stores s !! m) as [st0|] eqn:E0; [|exists st'; eauto].
    simpl in E'. rewrite alter_alter_eq in E'.
    apply lookup_alter_Some in E' as [(-> & st & E & ->)|[_ E]].
    + exists st. split; [done|]. simpl. split; [done|].
      right. congruence.
    + exists st'. eauto.
  - left. unfold _callback in *.
    destruct (stores s !! m) as [st0|] eqn:E0; [|exists st'; eauto].
    assert (E'' : alter (with_version (to_int32 (version st0 + 1))) m
                    (stores s) !! k = Some st')
      by (by destruct (onChangeNotifyReact st0)).
    apply lookup_alter_Some in E'' as [(-> & st & E & ->)|[_ E]].
    + exists st. split; [done|]. simpl. split; [done|].
      right. congruence.
    + exists st'. eauto.
  - left. exists st'. eauto.
  - left. destruct (Hhost s (host_part_drain_fuel _ _ _)) as (st & ? & ? & ?).
    eauto.
Qed.

Lemma run_snoc ops o s : run (ops ++ [o]) s = step o (run ops s).
Proof. by rewrite run_app. Qed.

(** Along any calls whatsoever, every store was allocated below [nextStore]
    and its version is a signed 32-bit integer. *)
Lemma reachable_stores ops k st :
  stores (run ops initial) !! k = Some st →
  (k < nextStore (run ops initial))%nat ∧ int32 (version st).
Proof.
  revert k st. induction ops as [|o ops IH] using rev_ind; intros k st E.
  - simpl in E. by rewrite lookup_empty in E.
  - rewrite run_snoc in *.
    pose proof (nextStore_step o (run ops initial)) as Hn.
    destruct (step_store _ _ _ _ E) as [(st0 & E0 & _ & Hv)|(-> & Hv & Hlt)].
    + destruct (IH _ _ E0) as [Hk Hr]. split; [lia|].
      destruct Hv as [-> | ->]; [done|apply to_int32_range].
    + split; [done|]. rewrite Hv. unfold int32. lia.
Qed.

(** X1: along any sequence of calls from the initial state, the snapshot of
    every store is a signed 32-bit integer. *)
Theorem snapshot_stays_int32 ops n v :
  getSnapshot n (run ops initial) = Some v → int32 v.
Proof.
  unfold getSnapshot. intros H.
  destruct (stores (run ops initial) !! n) as [st|] eqn:E; [|done].
  injection H as <-. by destruct (reachable_stores ops n st E).
Qed.

Lemma snapshot_stays_int32_witness :
  getSnapshot 0
    (run [OpCreate UNMANAGED; OpCallback 0; OpUnsubscribe 0] initial) = Some 2
  ∧ int32 2.
Proof.
  split; [reflexivity|].
  exact (snapshot_stays_int32
           [OpCreate UNMANAGED; OpCallback 0; OpUnsubscribe 0] 0 2 eq_refl).
Defined.

Lemma step_bumps_version n o s v :
  (n < nextStore s)%nat →
  getSnapshot n s = Some v →
  getSnapshot n (step o s)
  = Some (if bumps_version n o then to_int32 (v + 1) else v)
  ∧ (n < nextStore (step o s))%nat.
Proof.
  intros Hn Hv.
  pose proof (nextStore_step o s) as Hle. split; [|lia].
  destruct (bumps_version n o) eqn:Hb.
  - unfold getSnapshot in Hv.
    destruct (stores s !! n) as [st|] eqn:E; [|done]. injection Hv as <-.
    destruct o; try done; apply bool_decide_eq_true in Hb as ->; simpl.
    + by apply getSnapshot_unsubscribe.
    + by apply getSnapshot__callback.
  - rewrite <- Hv. by apply step_keeps_version.
Qed.

Lemma to_int32_period v c :
  int32 v → to_int32 (v + c) = v ↔ c mod 2 ^ 32 = 0.
Proof.
  intros Hv. split.
  - intros H. pose proof (to_int32_congr (v + c)) as Hc.
    rewrite H in Hc. replace (v - (v + c)) with (- c) in Hc by ring.
    apply Z.mod_divide in Hc; [|lia]. apply Z.mod_divide; [lia|].
    by apply (proj1 (Z.divide_opp_r _ _)).
  - intros H. apply Z.mod_divide in H as [q ->]; [|lia].
    rewrite to_int32_shifted.
    replace (v + q * 2 ^ 32 + 2 ^ 31) with (v + 2 ^ 31 + q * 2 ^ 32) by ring.
    rewrite Z.mod_add by lia. rewrite <- to_int32_shifted.
    by apply to_int32_small.
Qed.

(** X2: the snapshot of a store counts the firings of its Tracking Effect
    callback and the calls of its unsubscribe function, modulo 2^32: it is
    the old snapshot plus their number, wrapped to 32 bits, and so it equals
    the old snapshot exactly when that number is a multiple of 2^32. *)
Theorem snapshot_counts_bumps n ops s v :
  (n < nextStore s)%nat →
  getSnapshot n s = Some v →
  int32 v →
  getSnapshot n (run ops s)
  = Some (to_int32 (v + Z.of_nat (bump_count n ops)))
  ∧ (getSnapshot n (run ops s) = Some v
     ↔ Z.of_nat (bump_count n ops) mod 2 ^ 32 = 0).
Proof.
  intros Hn Hv Hr.
  assert (H : getSnapshot n (run ops s)
              = Some (to_int32 (v + Z.of_nat (bump_count n ops)))).
  { revert s v Hn Hv Hr. induction ops as [|o ops IH]; intros s v Hn Hv Hr.
    - simpl. by rewrite Z.add_0_r, to_int32_small.
    - simpl. destruct (step_bumps_version n o s v Hn Hv) as [Hv' Hn'].
      destruct (bumps_version n o).
      + rewrite (IH _ _ Hn' Hv' (to_int32_range _)).
        rewrite to_int32_add_l. do 2 f_equal. lia.
      + by rewrite (IH _ _ Hn' Hv' Hr). }
  split; [done|]. rewrite H. rewrite <- (to_int32_period v _ Hr).
  split; [by intros [= ?]|by intros ->].
Qed.

Lemma snapshot_counts_bumps_witness :
  getSnapshot 0
    (run [OpCallback 0; OpStart 0; OpUnsubscribe 0; OpFinish 0] ex_subscribed)
  = Some 2.
Proof.
  exact (proj1 (snapshot_counts_bumps 0
                  [OpCallback 0; OpStart 0; OpUnsubscribe 0; OpFinish 0]
                  ex_subscribed 0 ltac:(simpl; lia) eq_refl
                  ltac:(unfold int32; lia))).
Defined.

Lemma usage_of_step o s k :
  (k < nextStore s)%nat → usage_of k (step o s) = usage_of k s.
Proof.
  intros Hk. unfold usage_of.
  assert (Hh : ∀ s' : Runtime,
    host_part <$> stores s' !! k = host_part <$> stores s !! k →
    _usage <$> stores s' !! k = _usage <$> stores s !! k).
  { intros s' H. destruct (stores s' !! k), (stores s !! k);
      unfold host_part in *; simpl in *; congruence. }
  assert (Ha : ∀ g m, (∀ st, _usage (g st) = _usage st) →
    _usage <$> alter g m (stores s) !! k = _usage <$> stores s !! k).
  { intros g m Hg. rewrite lookup_alter. case_decide; [subst|done].
    destruct (stores s !! k); simpl; by rewrite ?Hg. }
  destruct (writes_host k o) eqn:Hw.
  - destruct o; try done; apply bool_decide_eq_true in Hw as ->; simpl.
    + by apply Ha.
    + unfold unsubscribe.
      destruct (stores s !! k) as [st|] eqn:E; [|by rewrite E].
      simpl. rewrite alter_alter_eq. by apply Ha.
    + unfold _callback.
      destruct (stores s !! k) as [st|] eqn:E; [|by rewrite E].
      destruct (onChangeNotifyReact st); simpl; by apply Ha.
  - by apply Hh, host_part_step_other.
Qed.

(** X3: the usage of a store is fixed when it is created: no sequence of
    calls changes it, and [useSignals] on an existing store ignores its
    usage argument. *)
Theorem usage_is_fixed ops s k u u' :
  (k < nextStore s)%nat →
  usage_of k s = Some u →
  usage_of k (run ops s) = Some u
  ∧ usage_of k (snd (useSignals (Some k) u' s)) = Some u
  ∧ fst (useSignals (Some k) u' s) = k
  ∧ nextStore (snd (useSignals (Some k) u' s)) = nextStore s.
Proof.
  intros Hk Hu. split; [|split; [|split]].
  - revert s Hk Hu. induction ops as [|o ops IH]; intros s Hk Hu; [done|].
    simpl. apply IH.
    + pose proof (nextStore_step o s). lia.
    + by rewrite usage_of_step.
  - rewrite <- Hu. apply (usage_of_step (OpUseSignals (Some k) u') s k Hk).
  - done.
  - unfold useSignals. simpl.
    by rewrite nextStore__start, nextStore_ensureFinalCleanup.
Qed.

Lemma usage_is_fixed_witness :
  usage_of 0 (snd (useSignals (Some 0%nat) UNMANAGED ex_component_active))
  = Some MANAGED_COMPONENT.
Proof.
  exact (proj1 (proj2 (usage_is_fixed [] ex_component_active 0
                          MANAGED_COMPONENT UNMANAGED
                          ltac:(vm_compute; lia) eq_refl))).
Defined.

Lemma registered_step o s k :
  writes_callback k o = false →
  (k < nextStore s)%nat →
  registered k (step o s) = registered k s.
Proof.
  intros Hw Hk. unfold registered.
  destruct (writes_host k o) eqn:Hh.
  - destruct o; try done; simpl in Hw, Hh; try congruence.
    apply bool_decide_eq_true in Hh as ->. simpl.
    unfold _callback.
    destruct (stores s !! k) as [st|] eqn:E; [|by rewrite E].
    destruct (onChangeNotifyReact st) eqn:Ecb; simpl;
      by rewrite lookup_alter_eq, E.
  - pose proof (host_part_step_other o s k Hh Hk) as H.
    destruct (stores (step o s) !! k), (stores s !! k);
      unfold host_part in *; simpl in *; congruence.
Qed.

(** X4: the host callback registered on a store stays registered through
    every call that is not a [subscribe] or unsubscribe of that store:
    renders, nested scopes, notifications and the deferred cleanup never
    unsubscribe the host. *)
Theorem registration_persists ops s k :
  (k < nextStore s)%nat →
  forallb (λ o, negb (writes_callback k o)) ops = true →
  registered k (run ops s) = registered k s.
Proof.
  revert s. induction ops as [|o ops IH]; intros s Hk Hops; [done|].
  simpl in *. apply andb_true_iff in Hops as [Ho Hops].
  apply negb_true_iff in Ho.
  rewrite IH; [by apply registered_step| |done].
  pose proof (nextStore_step o s). lia.
Qed.

Lemma registration_persists_witness :
  registered 0
    (run [OpUseSignals (Some 0%nat) UNMANAGED; OpCallback 0; OpFinish 0;
          OpDrain] ex_subscribed)
  = Some (Some 7%nat).
Proof.
  exact (registration_persists
           [OpUseSignals (Some 0%nat) UNMANAGED; OpCallback 0; OpFinish 0;
            OpDrain] ex_subscribed 0 ltac:(simpl; lia) eq_refl).
Defined.

(** ** Calls to the host *)









(** ** Properly nested scopes leave no mark *)

Lemma add_trace_nil s : add_trace [] s = s.
Proof. destruct s. unfold add_trace. simpl. by rewrite app_nil_r. Qed.

Lemma add_trace_app evs1 evs2 s :
  add_trace evs2 (add_trace evs1 s) = add_trace (evs1 ++ evs2) s.
Proof. unfold add_trace. simpl. by rewrite app_assoc. Qed.

Lemma nests_ok_ext s s' outer c :
  (∀ m, m ∈ called c → stores s' !! m = stores s !! m) →
  nests_ok s' outer c = nests_ok s outer c.
Proof.
  revert outer. induction c as [|n body IHb rest IHr]; intros outer Hs; [done|].
  simpl in *. rewrite (Hs n) by (by left).
  destruct (stores s !! n) as [this|]; [|done].
  rewrite IHb, IHr; [done| |]; intros m Hm; apply Hs; right;
    apply elem_of_app; auto.
Qed.

(** [_start()], a body that left only a trace, and [f()]. *)
Lemma f_add_trace_begin_tracking n s this evs :
  stores s !! n = Some this →
  idle this →
  f n (add_trace evs (begin_tracking n (currentStore s) s))
  = add_trace (EffectStart n :: evs ++ [EffectEnd n]) s.
Proof.
  intros E (Hr & Hp & He). unfold f. simpl.
  rewrite lookup_alter_eq, E. simpl.
  unfold add_trace, upd, set_stores, set_currentStore, run_endEffect, emit,
    set_evalContext. simpl.
  rewrite alter_alter_eq, alter_id.
  - destruct s. simpl. f_equal.
    rewrite <- !app_assoc. done.
  - intros st E'. rewrite E in E'. injection E' as <-.
    destruct this; simpl in *. by subst.
Qed.

Lemma run_flatten_nested c : ∀ s,
  register_ok s →
  nests_ok s (current_usage s) c = true →
  run (flatten c) s = add_trace (events_of c) s.
Proof.
  induction c as [|n body IHb rest IHr]; intros s Hreg Hok.
  - simpl. by rewrite add_trace_nil.
  - simpl in Hok. destruct (stores s !! n) as [this|] eqn:E; [|done].
    apply andb_true_iff in Hok as [Hok Hrest].
    apply andb_true_iff in Hok as [Hok Hbody].
    apply andb_true_iff in Hok as [Hok Hn].
    apply andb_true_iff in Hok as [Hi Hcap].
    apply bool_decide_eq_true in Hn. apply idle_idleb in Hi.
    assert (Hs : _start n s = begin_tracking n (currentStore s) s).
    { unfold current_usage, usage_of in Hcap.
      destruct (currentStore s) as [c0|] eqn:Hc.
      - destruct (Hreg c0 Hc) as [cur Ec]. rewrite Ec in Hcap.
        by apply (_start_capture s c0 n cur this).
      - by apply (_start_first s n this). }
    set (s1 := begin_tracking n (currentStore s) s) in *.
    assert (E1 : stores s1 !! n
                 = Some (with_tracking true (currentStore s)
                           (Some (mkEndEffect n (evalContext s))) this)).
    { subst s1. rewrite lookup_begin_tracking, decide_True by done.
      by rewrite E. }
    assert (Hb1 : run (flatten body) s1 = add_trace (events_of body) s1).
    { apply IHb.
      - intros c0 Hc0. simpl in Hc0. injection Hc0 as <-. by eexists.
      - replace (current_usage s1) with (Some (_usage this)).
        + rewrite <- Hbody. apply nests_ok_ext. intros m Hm. subst s1.
          rewrite lookup_begin_tracking, decide_False; [done|].
          by intros ->.
        + assert (Hc1 : currentStore s1 = Some n) by done.
          unfold current_usage, usage_of. by rewrite Hc1, E1. }
    simpl. rewrite Hs, run_app. simpl. rewrite Hb1.
    subst s1. rewrite (f_add_trace_begin_tracking n s this) by done.
    rewrite IHr.
    + rewrite add_trace_app. f_equal. simpl. by rewrite <- app_assoc.
    + done.
    + erewrite nests_ok_ext; [exact Hrest|done].
Qed.

(** X7: properly nested scopes leave no mark on the runtime.  When every
    store that is started is not tracking, is not started again inside
    itself and meets an empty register or a capture-and-restore pair, the
    runtime after the last [f()] is the one before the first [_start()]:
    register, recording slot and bookkeeping of every store are as before,
    and only the calls to the reactive core, themselves properly nested, were
    added. *)
Theorem nested_scopes_leave_no_mark c s :
  register_ok s →
  nests_ok s (current_usage s) c = true →
  run (flatten c) s = add_trace (events_of c) s
  ∧ currentStore (run (flatten c) s) = currentStore s
  ∧ attributed_to (run (flatten c) s) = attributed_to s
  ∧ stores (run (flatten c) s) = stores s
  ∧ scopeStack (run (flatten c) s) = scopeStack s.
Proof.
  intros Hreg Hok. rewrite (run_flatten_nested c s Hreg Hok). done.
Qed.

Lemma nested_scopes_leave_no_mark_witness :
  run (flatten (Call 0 (Call 1 Done (Call 1 Done Done)) Done))
    (run [OpCreate MANAGED_COMPONENT; OpCreate MANAGED_HOOK] initial)
  = add_trace [EffectStart 0; EffectStart 1; EffectEnd 1; EffectStart 1;
               EffectEnd 1; EffectEnd 0]
      (run [OpCreate MANAGED_COMPONENT; OpCreate MANAGED_HOOK] initial).
Proof.
  refine (proj1 (nested_scopes_leave_no_mark
                   (Call 0 (Call 1 Done (Call 1 Done Done)) Done)
                   (run [OpCreate MANAGED_COMPONENT; OpCreate MANAGED_HOOK]
                      initial) _ eq_refl)).
  intros c Hc. discriminate Hc.
Defined.

(** ** The calls to the reactive core are properly nested *)

Lemma replay_app evs1 evs2 opened :
  replay (evs1 ++ evs2) opened = replay evs1 opened ≫= replay evs2.
Proof.
  revert opened. induction evs1 as [|e evs1 IH]; intros opened; [done|].
  destruct e; simpl; try apply IH.
  - case_bool_decide; [done|apply IH].
  - destruct opened as [|o opened']; [done|].
    case_bool_decide; [apply IH|done].
Qed.

Lemma replay_snoc_other t e l l' :
  replay t l = Some l' →
  (∀ n, e ≠ EffectStart n) → (∀ n, e ≠ EffectEnd n) →
  replay (t ++ [e]) l = Some l'.
Proof.
  intros H Hs He. rewrite replay_app, H. simpl.
  destruct e; try done; [by destruct (Hs e)|by destruct (He e)].
Qed.

Lemma replay_begin_tracking s l n p :
  n ∉ l →
  replay (trace s) [] = Some l →
  replay (trace (begin_tracking n p s)) [] = Some (n :: l).
Proof.
  intros Hn H. simpl. rewrite replay_app, H. simpl.
  by rewrite bool_decide_eq_false_2.
Qed.

Lemma replay_f_top s n l :
  consistent s (n :: l) →
  replay (trace s) [] = Some (n :: l) →
  replay (trace (f n s)) [] = Some l.
Proof.
  intros Hcons H.
  pose proof (cons_chain _ _ Hcons) as Hch.
  inversion Hch as [|n' st l' E Hr He Hn Hu Hch' Hc]; subst.
  rewrite (trace_f _ _ _ E), He, replay_app, H. simpl.
  by rewrite bool_decide_eq_true_2.
Qed.

Lemma traced__start s l n this :
  consistent s l →
  replay (trace s) [] = Some l →
  stores s !! n = Some this →
  startable n s = true →
  replay (trace (_start n s)) []
  = Some (table_start (current_usage s) (_usage this) n l).
Proof.
  intros Hcons Hrep E Hst.
  pose proof (startable_cases s n this E Hst) as Hcases.
  unfold current_usage, usage_of.
  destruct (currentStore s) as [c|] eqn:Hc.
  - pose proof (cons_chain _ _ Hcons) as Hch. rewrite Hc in Hch.
    inversion Hch as [|c' cur l' Ec Hr He Hn Hu Hch' Hcl]; subst.
    rewrite Ec. simpl.
    assert (Hidle : _usage this ≠ UNMANAGED → n ∉ c :: l').
    { intros Hnu. destruct Hcases as [Hi|[_ ?]]; [|done].
      by apply (consistent_idle_off_chain s _ n this Hcons E). }
    destruct (_usage cur) eqn:Ucur, (_usage this) eqn:Uthis; simpl.
    1,2: rewrite (_start_sibling s c n cur this) by (rewrite ?Uthis; auto);
      rewrite (Hu eq_refl) in Hch'; inversion Hch'; subst;
      apply replay_begin_tracking; [apply not_elem_of_nil|];
      by apply replay_f_top.
    2,5: by rewrite (_start_folded s c n cur this) by (rewrite ?Ucur; auto).
    all: rewrite (_start_capture s c n cur this)
           by (rewrite ?Ucur, ?Uthis; done);
         apply replay_begin_tracking; [by apply Hidle|done].
  - pose proof (cons_chain _ _ Hcons) as Hch. rewrite Hc in Hch.
    inversion Hch; subst. simpl.
    rewrite (_start_first s n this) by done.
    apply replay_begin_tracking; [apply not_elem_of_nil|done].
Qed.

Lemma traced_f s l n :
  consistent s l →
  replay (trace s) [] = Some l →
  finishable n s = true →
  replay (trace (f n s)) []
  = Some (if decide (currentStore s = Some n) then tail l else l).
Proof.
  intros Hcons Hrep Hfin. case_decide as Hc.
  - pose proof (cons_chain _ _ Hcons) as Hch. rewrite Hc in Hch.
    inversion Hch; subst. simpl. by apply replay_f_top.
  - unfold finishable in Hfin. apply orb_true_iff in Hfin as [Hi|Hc'].
    + by rewrite is_idle_f.
    + by apply bool_decide_eq_true in Hc'.
Qed.

(** The invariant of paired call sequences, with the trace. *)
Lemma traced_step o s l :
  consistent s l →
  replay (trace s) [] = Some l →
  permitted_op s o = true →
  ∃ l', consistent (step o s) l' ∧ replay (trace (step o s)) [] = Some l'.
Proof.
  intros Hcons Hrep Hp.
  destruct o as [u|n|n|n|r u|n cb|n|n|n|]; simpl in *.
  - exists l. split; [by apply consistent_createEffectStore|].
    by apply replay_snoc_other.
  - destruct (stores s !! n) as [this|] eqn:E.
    + eexists. split; [by eapply consistent__start|by eapply traced__start].
    + exists l. unfold _start. by rewrite E.
  - eexists. split; [by apply consistent_f|by apply traced_f].
  - eexists. split; [by apply consistent_f|by apply traced_f].
  - unfold useSignals. destruct r as [n|]; simpl.
    + pose proof (consistent_ensureFinalCleanup s l Hcons) as Hcons'.
      assert (Hrep' : replay (trace (ensureFinalCleanup s)) [] = Some l).
      { unfold ensureFinalCleanup. by destruct (finalCleanup s). }
      destruct (stores (ensureFinalCleanup s) !! n) as [this|] eqn:E.
      * eexists. split.
        -- eapply consistent__start; [done|done|].
           by rewrite startable_ensureFinalCleanup.
        -- eapply traced__start; [done|done|done|].
           by rewrite startable_ensureFinalCleanup.
      * exists l. unfold _start. by rewrite E.
    + pose proof (consistent_createEffectStore _ l u
                    (consistent_ensureFinalCleanup s l Hcons)) as Hcons'.
      set (s0 := snd (createEffectStore u (ensureFinalCleanup s))) in *.
      assert (Hrep' : replay (trace s0) [] = Some l).
      { subst s0. simpl. apply replay_snoc_other; [|done|done].
        unfold ensureFinalCleanup. by destruct (finalCleanup s). }
      assert (E0 : stores s0 !! nextStore (ensureFinalCleanup s)
                   = Some {| _usage := u; version := 0;
                             onChangeNotifyReact := None; doRestore := false;
                             prevStore := None; endEffect := None |}).
      { subst s0. simpl. apply lookup_insert_eq. }
      assert (Hst : startable (nextStore (ensureFinalCleanup s)) s0 = true).
      { unfold startable, is_idle. by rewrite E0. }
      eexists. split.
      * by eapply (consistent__start s0).
      * by eapply (traced__start s0).
  - exists l. split; [by apply consistent_subscribe|done].
  - exists l. split; [by apply consistent_unsubscribe|].
    unfold unsubscribe. destruct (stores s !! n); [|done].
    by apply replay_snoc_other.
  - exists l. split; [by apply consistent__callback|].
    unfold _callback. destruct (stores s !! n) as [st|]; [|done].
    destruct (onChangeNotifyReact st); [|done].
    by apply replay_snoc_other.
  - by exists l.
  - unfold drainMicrotasks. generalize (length (microtasks s)). intros k.
    revert s l Hcons Hrep. induction k as [|k IH]; intros s l Hcons Hrep.
    + by exists l.
    + simpl. unfold step_microtask.
      destruct (microtasks s) as [|[] q] eqn:Hq; [by eapply IH|]. simpl.
      assert (Hcons' : consistent
                (set_finalCleanup false (set_microtasks q s)) l)
        by (by eapply consistent_same_shape).
      destruct (currentStore s) as [c|] eqn:Hc; [|by eapply IH].
      pose proof (cons_chain _ _ Hcons) as Hch. rewrite Hc in Hch.
      inversion Hch; subst.
      eapply IH; [by apply consistent_f_top|by apply replay_f_top].
Qed.

Lemma traced_run ops s l :
  consistent s l →
  replay (trace s) [] = Some l →
  permitted s ops = true →
  ∃ l', consistent (run ops s) l' ∧ replay (trace (run ops s)) [] = Some l'.
Proof.
  revert s l. induction ops as [|o ops IH]; intros s l Hcons Hrep Hp.
  - by exists l.
  - simpl in *. apply andb_true_iff in Hp as [Ho Hp].
    destruct (traced_step o s l Hcons Hrep Ho) as (l' & Hcons' & Hrep').
    by eapply IH.
Qed.

(** X8: along every sequence of calls that pairs [_start()] and [f()], the
    calls made to the reactive core are properly nested: no effect is
    started while it is open, every closer that runs is the one of the
    innermost open effect, and the effects left open are exactly the scopes
    of the stack, innermost first. *)
Theorem core_calls_are_nested ops :
  permitted initial ops = true →
  replay (trace (run ops initial)) [] = Some (scopeStack (run ops initial)).
Proof.
  intros Hp.
  destruct (traced_run ops initial [] consistent_initial eq_refl Hp)
    as (l & Hcons & Hrep).
  by rewrite (consistent_scopeStack _ _ Hcons).
Qed.

Lemma core_calls_are_nested_witness :
  replay (trace (run ex_render initial)) []
  = Some (scopeStack (run ex_render initial))
  ∧ scopeStack (run ex_render initial) = [0%nat].
Proof.
  split; [exact (core_calls_are_nested ex_render eq_refl)|reflexivity].
Defined.

(** ** The deferred cleanup closes one scope *)

(** X9: when the microtask queue drains after a sequence of calls that pairs
    [_start()] and [f()], the cleanup callback, if armed, closes the
    innermost scope only: the stack of scopes loses its head, so a scope
    that was suspended below it is active again; draining a second time
    changes nothing. *)
Theorem cleanup_closes_innermost_scope ops :
  permitted initial ops = true →
  let s := run ops initial in
  scopeStack (drainMicrotasks s)
  = (if finalCleanup s then tail (scopeStack s) else scopeStack s)
  ∧ currentStore (drainMicrotasks s) = head (scopeStack (drainMicrotasks s))
  ∧ attributed_to (drainMicrotasks s) = currentStore (drainMicrotasks s)
  ∧ drainMicrotasks (drainMicrotasks s) = drainMicrotasks s.
Proof.
  intros Hp s.
  destruct (reachable_consistent ops Hp) as [l Hcons]. fold s in Hcons.
  assert (Hq : reaper_consistent s) by (by apply reaper_consistent_run).
  rewrite (consistent_scopeStack s l Hcons).
  assert (Hd : consistent (drainMicrotasks s)
                 (if finalCleanup s then tail l else l)).
  { destruct (finalCleanup s) eqn:Hf.
    - rewrite drainMicrotasks_armed by done.
      assert (Hcons' : consistent
                (set_finalCleanup false (set_microtasks [] s)) l)
        by (by eapply consistent_same_shape).
      pose proof (cons_chain _ _ Hcons) as Hch.
      destruct (currentStore s) as [c|] eqn:Hc.
      + inversion Hch; subst. simpl. by apply consistent_f_top.
      + inversion Hch; subst. done.
    - by rewrite drainMicrotasks_disarmed. }
  rewrite (consistent_scopeStack _ _ Hd).
  split; [done|].
  split; [apply (scope_chain_head _ _ _ (cons_chain _ _ Hd))|].
  split; [apply (cons_context _ _ Hd)|].
  pose proof (reaper_part_drainMicrotasks s Hq) as Hr.
  apply drainMicrotasks_disarmed.
  - apply (reaper_consistent_step OpDrain s Hq).
  - exact (f_equal fst Hr).
Qed.

Lemma cleanup_closes_innermost_scope_witness :
  scopeStack
    (run [OpUseSignals None MANAGED_COMPONENT; OpUseSignals None MANAGED_HOOK]
       initial) = [1%nat; 0%nat]
  ∧ scopeStack
      (drainMicrotasks
         (run [OpUseSignals None MANAGED_COMPONENT;
               OpUseSignals None MANAGED_HOOK] initial)) = [0%nat].
Proof.
  split; [reflexivity|].
  exact (proj1 (cleanup_closes_innermost_scope
                  [OpUseSignals None MANAGED_COMPONENT;
                   OpUseSignals None MANAGED_HOOK] eq_refl)).
Defined.

(** ** [SignalValue] *)

Lemma bare_ref_cases storeRef s :
  bare_ref storeRef s = true →
  storeRef = None
  ∨ ∃ n this, storeRef = Some n ∧ stores s !! n = Some this
              ∧ _usage this = UNMANAGED ∧ idle this.
Proof.
  destruct storeRef as [n|]; [|by left]. simpl.
  destruct (stores s !! n) as [this|] eqn:E; [|intros H; discriminate H].
  intros [Hu Hi]%andb_true_iff. apply bool_decide_eq_true in Hu. right.
  exists n, this. split; [done|]. split; [done|]. split; [done|].
  by apply idle_idleb.
Qed.

(** X10: [SignalValue] rendered after a sequence of calls that pairs
    [_start()] and [f()].  Inside a managed component or hook the read of the
    signal is recorded by that managed scope, and the runtime's scopes are
    left as they were.  Otherwise the read is recorded by the store of
    [SignalValue] itself and the register is empty afterwards: an unmanaged
    scope that was active before is finished and is not put back.  In both
    cases the store of [SignalValue] is not tracking afterwards and the
    cleanup microtask is armed. *)
Theorem SignalValue_scope ops storeRef :
  permitted initial ops = true →
  bare_ref storeRef (run ops initial) = true →
  let s := run ops initial in
  let n := fst (useSignals storeRef UNMANAGED s) in
  fst (SignalValue storeRef s)
  = (if managed (current_usage s) then currentStore s else Some n)
  ∧ scopeStack (snd (SignalValue storeRef s))
    = (if managed (current_usage s) then scopeStack s else [])
  ∧ currentStore (snd (SignalValue storeRef s))
    = (if managed (current_usage s) then currentStore s else None)
  ∧ is_idle n (snd (SignalValue storeRef s)) = true
  ∧ finalCleanup (snd (SignalValue storeRef s)) = true.
Proof.
  intros Hp Href s n.
  destruct (reachable_consistent ops Hp) as [l Hcons]. fold s in Hcons.
  assert (Hq : reaper_consistent s) by (by apply reaper_consistent_run).
  rewrite (consistent_scopeStack s l Hcons).
  set (s0 := match storeRef with
             | Some _ => ensureFinalCleanup s
             | None => snd (createEffectStore UNMANAGED (ensureFinalCleanup s))
             end).
  assert (Hsv : SignalValue storeRef s
                = (attributed_to (_start n s0), f n (_start n s0))).
  { unfold SignalValue, useSignals, n, s0. by destruct storeRef. }
  assert (Hcons0 : consistent s0 l).
  { subst s0. destruct storeRef.
    - by apply consistent_ensureFinalCleanup.
    - by apply consistent_createEffectStore, consistent_ensureFinalCleanup. }
  assert (Hc0 : currentStore s0 = currentStore s).
  { subst s0. destruct storeRef; simpl;
      by rewrite currentStore_ensureFinalCleanup. }
  assert (Hold : ∀ k, (k < nextStore s)%nat →
                      stores s0 !! k = stores s !! k).
  { intros k Hk. subst s0. destruct storeRef; simpl.
    - by rewrite stores_ensureFinalCleanup.
    - rewrite nextStore_ensureFinalCleanup, lookup_insert_ne by lia.
      by rewrite stores_ensureFinalCleanup. }
  assert (Hu0 : current_usage s0 = current_usage s).
  { unfold current_usage, usage_of. rewrite Hc0.
    destruct (currentStore s) as [c|] eqn:Hc; [|done].
    rewrite Hold; [done|]. apply (cons_alloc _ _ Hcons).
    pose proof (cons_chain _ _ Hcons) as Hch. rewrite Hc in Hch.
    inversion Hch; subst. by eexists. }
  assert (Hn : ∃ this, stores s0 !! n = Some this
                       ∧ _usage this = UNMANAGED ∧ idle this).
  { destruct (bare_ref_cases _ _ Href) as [->|(m & this & -> & E & Hu & Hi)].
    - exists ex_unmanaged_store. split; [|by repeat split]. subst s0 n.
      unfold useSignals. simpl. apply lookup_insert_eq.
    - exists this. split; [|done]. subst s0 n. simpl.
      by rewrite stores_ensureFinalCleanup. }
  destruct Hn as (this & En & Hu & Hi).
  assert (Hst : startable n s0 = true).
  { unfold startable, is_idle. rewrite En.
    apply idle_idleb in Hi. by rewrite Hi. }
  pose proof (consistent__start s0 l n this Hcons0 En Hst) as Hcons1.
  rewrite Hu0, Hu in Hcons1.
  assert (Hq1 : reaper_part (f n (_start n s0)) = (true, [FinalCleanupTask])).
  { rewrite reaper_part_f, reaper_part__start. subst s0.
    destruct storeRef; simpl; by apply reaper_part_ensureFinalCleanup. }
  rewrite Hsv. simpl.
  assert (Hmain :
    attributed_to (_start n s0)
    = (if managed (current_usage s) then currentStore s else Some n)
    ∧ consistent (f n (_start n s0))
        (if managed (current_usage s) then l else [])).
  { unfold attributed_to. rewrite (cons_context _ _ Hcons1).
    rewrite (scope_chain_head _ _ _ (cons_chain _ _ Hcons1)).
    assert (Hpop : consistent (_start n s0) [n] →
                   consistent (f n (_start n s0)) []).
    { intros H. by apply consistent_f_top. }
    assert (Hfold : _start n s0 = s0 → consistent (f n (_start n s0)) l).
    { intros ->. by rewrite (f_idle n s0 this). }
    assert (Hhead : head l = currentStore s)
      by (symmetry; apply (scope_chain_head _ _ _ (cons_chain _ _ Hcons))).
    unfold current_usage, usage_of in *.
    destruct (currentStore s) as [c|] eqn:Hc.
    - pose proof (cons_chain _ _ Hcons0) as Hch. rewrite Hc0 in Hch.
      inversion Hch as [|c' cur l' Ec Hr He Hnl Hcu Hch' Hcl]; subst.
      rewrite <- Hold, Ec in *
        by (apply (cons_alloc _ _ Hcons);
            pose proof (cons_chain _ _ Hcons) as Hch2; rewrite Hc in Hch2;
            inversion Hch2; subst; by eexists).
      simpl in *.
      destruct (_usage cur) eqn:Ucur; simpl in *.
      + split; [done|]. by apply Hpop.
      + split; [done|]. apply Hfold.
        apply (_start_folded s0 c n cur this); rewrite ?Ucur; auto.
      + split; [done|]. apply Hfold.
        apply (_start_folded s0 c n cur this); rewrite ?Ucur; auto.
    - simpl in *. split; [done|]. by apply Hpop. }
  destruct Hmain as [Hwho Hcons2].
  split; [done|].
  rewrite (consistent_scopeStack _ _ Hcons2).
  split; [by destruct (managed (current_usage s))|].
  split.
  { rewrite (scope_chain_head _ _ _ (cons_chain _ _ Hcons2)).
    destruct (managed (current_usage s)); [|done].
    symmetry. apply (scope_chain_head _ _ _ (cons_chain _ _ Hcons)). }
  split; [|exact (f_equal fst Hq1)].
  unfold is_idle. rewrite lookup_f, decide_True by done.
  destruct (stores (_start n s0) !! n); done.
Qed.

Lemma SignalValue_scope_witness :
  fst (SignalValue None (run ex_bare initial)) = Some 2%nat
  ∧ currentStore (snd (SignalValue None (run ex_bare initial))) = None
  ∧ currentStore (run ex_bare initial) = Some 1%nat.
Proof.
  destruct (SignalValue_scope ex_bare None eq_refl eq_refl)
    as (H1 & _ & H2 & _).
  split; [exact H1|]. split; [exact H2|reflexivity].
Defined.

(** ** [wrapJsx] *)

Lemma lookup_wrapped value_of (p : gmap string PropValue) i :
  map_imap (λ i v, Some (unwrap_prop value_of i v)) p !! i
  = unwrap_prop value_of i <$> p !! i.
Proof. rewrite map_lookup_imap. by destruct (p !! i). Qed.

(** X11: the function returned by [wrapJsx] replaces, in the properties of a
    host element, every signal outside [children] by its current value, one
    level deep, and leaves everything else alone: the set of property names,
    [children], the values that are not signals, the properties of anything
    that is not a host element, and a missing [props].  When no signal holds
    a signal, no signal is left outside [children] and a second pass changes
    nothing. *)
Theorem wrapJsx_unwraps_host_props value_of tag
    (p p' : gmap string PropValue) :
  wrapped_props value_of (HostElement tag) (Some p) = Some p' →
  dom p' = dom p
  ∧ p' !! "children"%string = p !! "children"%string
  ∧ (∀ i sig, i ≠ "children"%string → p !! i = Some (SignalProp sig) →
       p' !! i = Some (value_of sig))
  ∧ (∀ i v, p !! i = Some (OtherProp v) → p' !! i = Some (OtherProp v))
  ∧ (∀ id props, wrapped_props value_of (OtherType id) props = props)
  ∧ (∀ type, wrapped_props value_of type None = None)
  ∧ ((∀ sig, ∃ v, value_of sig = OtherProp v) →
     (∀ i sig, i ≠ "children"%string → p' !! i ≠ Some (SignalProp sig))
     ∧ wrapped_props value_of (HostElement tag) (Some p') = Some p').
Proof.
  intros H. simpl in H. injection H as <-.
  split; [|split; [|split; [|split; [|split; [|split]]]]].
  - apply set_eq. intros i. rewrite !elem_of_dom, lookup_wrapped.
    by rewrite fmap_is_Some.
  - rewrite lookup_wrapped. unfold unwrap_prop.
    rewrite bool_decide_eq_false_2 by (by intros ?).
    by destruct (p !! "children"%string).
  - intros i sig Hi E. rewrite lookup_wrapped, E. simpl. unfold unwrap_prop.
    by rewrite bool_decide_eq_true_2.
  - intros i v E. rewrite lookup_wrapped, E. simpl. unfold unwrap_prop.
    by case_bool_decide.
  - done.
  - by intros [].
  - intros Hplain. split.
    + intros i sig Hi. rewrite lookup_wrapped.
      destruct (p !! i) as [[sig0|v]|]; simpl; [| |done];
        unfold unwrap_prop; rewrite bool_decide_eq_true_2 by done; [|done].
      destruct (Hplain sig0) as [v ->]. done.
    + simpl. f_equal. apply map_eq. intros i. rewrite !lookup_wrapped.
      destruct (p !! i) as [[sig0|v]|]; simpl; [| |done]; f_equal;
        unfold unwrap_prop; case_bool_decide; try done.
      destruct (Hplain sig0) as [v ->]. done.
Qed.

Lemma wrapJsx_unwraps_host_props_witness :
  wrapped_props ex_value_of (HostElement "div") (Some ex_props)
  = Some {[ "className"%string := OtherProp 5;
            "children"%string := SignalProp 0;
            "title"%string := OtherProp 3 ]}
  ∧ dom ({[ "className"%string := OtherProp 5;
            "children"%string := SignalProp 0;
            "title"%string := OtherProp 3 ]} : gmap string PropValue)
    = dom ex_props.
Proof.
  assert (H : wrapped_props ex_value_of (HostElement "div") (Some ex_props)
              = Some {[ "className"%string := OtherProp 5;
                        "children"%string := SignalProp 0;
                        "title"%string := OtherProp 3 ]}).
  { vm_compute. reflexivity. }
  split; [exact H|].
  exact (proj1 (wrapJsx_unwraps_host_props ex_value_of "div" ex_props _ H)).
Defined.

(** X12: [wrapJsx] passes everything but the unwrapped properties through:
    what is not a function is returned as it is, and the function it returns
    calls the wrapped one with the same type and the same remaining
    arguments, and with the very same properties when the type is not a host
    element, when [props] is missing, or when no property outside
    [children] is a signal. *)
Theorem wrapJsx_passes_through {R : Type} value_of
    (fn : JsxType → option (gmap string PropValue) → list nat → R) v :
  wrapJsx value_of (NotAFunction v) = NotAFunction (R := R) v
  ∧ ∃ g, wrapJsx value_of (JsxFunction fn) = JsxFunction g
         ∧ (∀ type props rest,
              g type props rest
              = fn type (wrapped_props value_of type props) rest)
         ∧ (∀ id props rest,
              g (OtherType id) props rest = fn (OtherType id) props rest)
         ∧ (∀ type rest, g type None rest = fn type None rest)
         ∧ (∀ type (p : gmap string PropValue) rest,
              (∀ i sig, p !! i = Some (SignalProp sig) →
                        i = "children"%string) →
              g type (Some p) rest = fn type (Some p) rest).
Proof.
  split; [done|]. eexists. split; [done|].
  split; [done|]. split; [done|]. split; [by intros []|].
  intros type p rest Hp. f_equal.
  destruct type as [tag|id]; [|done]. simpl. f_equal.
  apply map_eq. intros i. rewrite lookup_wrapped.
  destruct (p !! i) as [[sig|v']|] eqn:E; simpl; [| |done]; f_equal;
    unfold unwrap_prop; case_bool_decide as Hi; try done.
  by destruct (Hi (Hp i sig E)).
Qed.


(** ** A managed component under an unmanaged scope *)

(** X14: the 0 -> 1 transition does not restore.  After a sequence of calls
    that pairs [_start()] and [f()], when a managed component store starts
    and finishes while an unmanaged store is in the register, the unmanaged
    store is finished by the start and nothing puts it back: afterwards the
    register and the recording slot are empty, no scope is open, and the
    unmanaged store is not tracking. *)
Theorem component_under_unmanaged_not_restored ops c n :
  permitted initial ops = true →
  currentStore (run ops initial) = Some c →
  usage_of c (run ops initial) = Some UNMANAGED →
  usage_of n (run ops initial) = Some MANAGED_COMPONENT →
  is_idle n (run ops initial) = true →
  let s := run ops initial in
  currentStore (_start n s) = Some n
  ∧ scopeStack (_start n s) = [n]
  ∧ currentStore (f n (_start n s)) = None
  ∧ attributed_to (f n (_start n s)) = None
  ∧ scopeStack (f n (_start n s)) = []
  ∧ is_idle c (f n (_start n s)) = true.
Proof.
  intros Hp Hc Huc Hun Hi s. fold s in Hc, Huc, Hun, Hi.
  destruct (reachable_consistent ops Hp) as [l Hcons]. fold s in Hcons.
  unfold usage_of in Huc, Hun.
  destruct (stores s !! c) as [cur|] eqn:Ec; [|done].
  destruct (stores s !! n) as [this|] eqn:En; [|done].
  injection Huc as Huc. injection Hun as Hun.
  assert (Hst : startable n s = true) by (unfold startable; by rewrite Hi).
  pose proof (consistent__start s l n this Hcons En Hst) as Hcons1.
  unfold current_usage, usage_of in Hcons1.
  rewrite Hc, Ec in Hcons1. simpl in Hcons1. rewrite Huc, Hun in Hcons1.
  pose proof (consistent_f_top _ _ _ Hcons1) as Hcons2.
  rewrite (consistent_scopeStack _ _ Hcons1),
    (consistent_scopeStack _ _ Hcons2).
  split; [apply (scope_chain_head _ _ _ (cons_chain _ _ Hcons1))|].
  split; [done|].
  split; [apply (scope_chain_head _ _ _ (cons_chain _ _ Hcons2))|].
  split.
  { unfold attributed_to. rewrite (cons_context _ _ Hcons2).
    apply (scope_chain_head _ _ _ (cons_chain _ _ Hcons2)). }
  split; [done|].
  unfold is_idle.
  destruct (stores (f n (_start n s)) !! c) as [st|] eqn:E; [|done].
  apply idle_idleb, (cons_idle _ _ Hcons2 c st E), not_elem_of_nil.
Qed.

Lemma component_under_unmanaged_not_restored_witness :
  currentStore
    (f 1 (_start 1 (run [OpCreate UNMANAGED; OpCreate MANAGED_COMPONENT;
                         OpStart 0] initial))) = None
  ∧ is_idle 0
      (f 1 (_start 1 (run [OpCreate UNMANAGED; OpCreate MANAGED_COMPONENT;
                           OpStart 0] initial))) = true.
Proof.
  destruct (component_under_unmanaged_not_restored
              [OpCreate UNMANAGED; OpCreate MANAGED_COMPONENT; OpStart 0]
              0 1 eq_refl eq_refl eq_refl eq_refl eq_refl)
    as (_ & _ & H1 & _ & _ & H2).
  split; [exact H1 | exact H2].
Defined.

(** ** Bare [useSignals()] calls, one after the other *)

Lemma consistent_drainMicrotasks s l :
  consistent s l →
  reaper_consistent s →
  consistent (drainMicrotasks s) (if finalCleanup s then tail l else l).
Proof.
  intros Hcons Hq. destruct (finalCleanup s) eqn:Hf.
  - rewrite drainMicrotasks_armed by done.
    assert (Hcons' : consistent
              (set_finalCleanup false (set_microtasks [] s)) l)
      by (by eapply consistent_same_shape).
    pose proof (cons_chain _ _ Hcons) as Hch.
    destruct (currentStore s) as [c|] eqn:Hc.
    + inversion Hch; subst. simpl. by apply consistent_f_top.
    + inversion Hch; subst. done.
  - by rewrite drainMicrotasks_disarmed.
Qed.

(** The first [useSignals] of a component: the new store meets the register
    as the transition table says. *)
Lemma consistent_useSignals_fresh s l u :
  consistent s l →
  consistent (snd (useSignals None u s))
    (table_start (current_usage s) u (nextStore s) l)
  ∧ usage_of (nextStore s) (snd (useSignals None u s)) = Some u
  ∧ nextStore (snd (useSignals None u s)) = S (nextStore s).
Proof.
  intros Hcons.
  set (s0 := snd (createEffectStore u (ensureFinalCleanup s))).
  set (st0 := {| _usage := u; version := 0; onChangeNotifyReact := None;
                 doRestore := false; prevStore := None; endEffect := None |}).
  assert (Hs : snd (useSignals None u s) = _start (nextStore s) s0).
  { unfold useSignals, s0. simpl. by rewrite nextStore_ensureFinalCleanup. }
  assert (Hcons0 : consistent s0 l)
    by (by apply consistent_createEffectStore, consistent_ensureFinalCleanup).
  assert (E0 : stores s0 !! nextStore s = Some st0).
  { subst s0. simpl.
    by rewrite nextStore_ensureFinalCleanup, lookup_insert_eq. }
  assert (Hu0 : current_usage s0 = current_usage s).
  { unfold current_usage, usage_of. subst s0. simpl.
    rewrite currentStore_ensureFinalCleanup.
    destruct (currentStore s) as [c|] eqn:Hc; [|done].
    rewrite nextStore_ensureFinalCleanup, stores_ensureFinalCleanup.
    rewrite lookup_insert_ne; [done|].
    pose proof (cons_chain _ _ Hcons) as Hch. rewrite Hc in Hch.
    inversion Hch; subst.
    assert (c < nextStore s)%nat
      by (apply (cons_alloc _ _ Hcons); by eexists).
    lia. }
  assert (Hst : startable (nextStore s) s0 = true).
  { unfold startable, is_idle. by rewrite E0. }
  pose proof (consistent__start s0 l _ st0 Hcons0 E0 Hst) as Hcons1.
  rewrite Hu0 in Hcons1. rewrite Hs. split; [done|]. split.
  - unfold usage_of.
    pose proof (host_part__start (nextStore s) s0 (nextStore s)) as Hh.
    rewrite E0 in Hh.
    destruct (stores (_start (nextStore s) s0) !! nextStore s); [|done].
    unfold host_part in Hh. simpl in *. congruence.
  - rewrite nextStore__start. subst s0. simpl.
    by rewrite nextStore_ensureFinalCleanup.
Qed.

Lemma current_usage_top s n l u :
  consistent s (n :: l) → usage_of n s = Some u → current_usage s = Some u.
Proof.
  intros Hcons Hu. unfold current_usage.
  by rewrite (scope_chain_head _ _ _ (cons_chain _ _ Hcons)).
Qed.

Lemma bare_renders_consistent k : ∀ s l,
  consistent s l →
  managed (current_usage s) = false →
  let s' := run (repeat (OpUseSignals None UNMANAGED) (S k)) s in
  consistent s' [(nextStore s + k)%nat]
  ∧ usage_of (nextStore s + k) s' = Some UNMANAGED.
Proof.
  induction k as [|k IH]; intros s l Hcons Hm;
    destruct (consistent_useSignals_fresh s l UNMANAGED Hcons)
      as (Hcons1 & Hu1 & Hn1);
    assert (Hl : table_start (current_usage s) UNMANAGED (nextStore s) l
                 = [nextStore s])
      by (by destruct (current_usage s) as [[]|]);
    rewrite Hl in Hcons1.
  - simpl. by rewrite Nat.add_0_r.
  - change (run (repeat (OpUseSignals None UNMANAGED) (S (S k))) s)
      with (run (repeat (OpUseSignals None UNMANAGED) (S k))
              (snd (useSignals None UNMANAGED s))).
    replace (nextStore s + S k)%nat
      with (nextStore (snd (useSignals None UNMANAGED s)) + k)%nat by lia.
    eapply IH; [done|].
    by rewrite (current_usage_top _ _ _ _ Hcons1 Hu1).
Qed.

(** X15: bare [useSignals()] calls that nobody finishes do not pile up.
    After a sequence of calls that pairs [_start()] and [f()] and leaves no
    managed scope active, any number of components that call a bare
    [useSignals()] for the first time, one after the other, leave exactly
    one scope open, the one of the last component; when the microtask queue
    drains, no scope is open, the register is empty and reads are recorded
    by nobody. *)
Theorem bare_renders_leave_one_scope ops k :
  permitted initial ops = true →
  managed (current_usage (run ops initial)) = false →
  let s := run ops initial in
  let s' := run (repeat (OpUseSignals None UNMANAGED) (S k)) s in
  scopeStack s' = [(nextStore s + k)%nat]
  ∧ usage_of (nextStore s + k) s' = Some UNMANAGED
  ∧ scopeStack (drainMicrotasks s') = []
  ∧ currentStore (drainMicrotasks s') = None
  ∧ attributed_to (drainMicrotasks s') = None.
Proof.
  intros Hp Hm s s'.
  destruct (reachable_consistent ops Hp) as [l Hcons]. fold s in Hcons.
  destruct (bare_renders_consistent k s l Hcons Hm) as [Hcons' Hu'].
  fold s' in Hcons', Hu'.
  assert (Hq' : reaper_consistent s')
    by (by apply reaper_consistent_run, reaper_consistent_run).
  assert (Hf' : finalCleanup s' = true).
  { subst s'.
    replace (repeat (OpUseSignals None UNMANAGED) (S k))
      with (repeat (OpUseSignals None UNMANAGED) k
            ++ [OpUseSignals None UNMANAGED])
      by (symmetry; apply repeat_cons).
    rewrite run_snoc.
    pose proof (reaper_part_step (OpUseSignals None UNMANAGED)
                  (run (repeat (OpUseSignals None UNMANAGED) k) s)
                  ltac:(by apply reaper_consistent_run,
                                 reaper_consistent_run)) as H.
    exact (f_equal fst H). }
  pose proof (consistent_drainMicrotasks s' _ Hcons' Hq') as Hd.
  rewrite Hf' in Hd. simpl in Hd.
  rewrite (consistent_scopeStack _ _ Hcons'),
    (consistent_scopeStack _ _ Hd).
  split; [done|]. split; [done|]. split; [done|].
  split; [apply (scope_chain_head _ _ _ (cons_chain _ _ Hd))|].
  unfold attributed_to. rewrite (cons_context _ _ Hd).
  apply (scope_chain_head _ _ _ (cons_chain _ _ Hd)).
Qed.

Lemma bare_renders_leave_one_scope_witness :
  scopeStack
    (run (repeat (OpUseSignals None UNMANAGED) 3) (run ex_bare initial))
  = [4%nat]
  ∧ currentStore
      (drainMicrotasks
         (run (repeat (OpUseSignals None UNMANAGED) 3)
            (run ex_bare initial))) = None.
Proof.
  destruct (bare_renders_leave_one_scope ex_bare 2 eq_refl eq_refl)
    as (H1 & _ & _ & H2 & _).
  split; [exact H1 | exact H2].
Defined.
